(** * chemistry_ViT: the chemistry-text rendering engine and its orchestrator

    A shallow embedding of [markdown_converter.py] and [pipeline.py]:
    Python strings are lists of Unicode code points, the [re] calls are
    transcribed as regular-expression terms run by a small backtracking
    matcher, the [while] loops keep their index variables, and the calls to
    the Mistral client are threaded through an explicit trace of events. *)

From Stdlib Require Import String Ascii.
From Stdlib Require Import List NArith ZArith QArith Lia Bool Arith.
Import ListNotations.

Close Scope Q_scope.

Set Implicit Arguments.

(** ** Python strings *)

(** A [str] is a sequence of code points. *)
Definition char := N.
Bind Scope N_scope with char.
Definition str := list char.

Definition str_of (s : string) : str :=
  map N_of_ascii (list_ascii_of_string s).

Definition ch (a : ascii) : char := N_of_ascii a.

(** The two characters that Rocq string literals cannot hold conveniently. *)
Definition NL : char := 10%N.
Definition TAB : char := 9%N.

Definition str_eqb (a b : str) : bool :=
  if list_eq_dec N.eq_dec a b then true else false.

(** [s.startswith(p)] *)
Fixpoint startswith (s p : str) : bool :=
  match p, s with
  | [], _ => true
  | _ :: _, [] => false
  | x :: p', y :: s' => (x =? y)%N && startswith s' p'
  end.

(** [s.endswith(p)] *)
Definition endswith (s p : str) : bool := startswith (rev s) (rev p).

(** [p in s] for strings. *)
Fixpoint contains (s p : str) : bool :=
  startswith s p ||
  match s with
  | [] => false
  | _ :: s' => contains s' p
  end.

(** Python slice bounds: a negative bound counts from the end, and both are
    clipped to the string. *)
Definition slice_bound (n : nat) (i : Z) : nat :=
  if (i <? 0)%Z then Z.to_nat (Z.max 0 (Z.of_nat n + i))
  else Nat.min n (Z.to_nat i).

(** [s[i:j]] *)
Definition slice (s : str) (i j : Z) : str :=
  let a := slice_bound (length s) i in
  let b := slice_bound (length s) j in
  firstn (b - a) (skipn a s).

(** [s[i:j]] for indices already known to be natural numbers. *)
Definition substr (s : str) (i j : nat) : str := firstn (j - i) (skipn i s).

(** [s[i:]] *)
Definition suffix_from (s : str) (i : nat) : str := skipn i s.

(** [s[i]], [None] standing for [IndexError]. *)
Definition char_at (s : str) (i : nat) : option char := nth_error s i.

Fixpoint find_in (c : char) (s : str) (i : nat) : option nat :=
  match s with
  | [] => None
  | x :: s' => if (x =? c)%N then Some i else find_in c s' (S i)
  end.

(** [s.find(c, start)] for a one-character needle; [None] stands for [-1]. *)
Definition str_find (s : str) (c : char) (start : nat) : option nat :=
  find_in c (skipn start s) start.

(** [s.replace(c, empty)] for a one-character needle [c]. *)
Definition remove_char (c : char) (s : str) : str :=
  filter (fun x => negb (x =? c)%N) s.

(** [s.replace(old, new)], left to right over non-overlapping occurrences,
    for a non-empty [old]; [skip] counts the characters of the occurrence
    being replaced that are still to be passed over. *)
Fixpoint replace_go (old new : str) (s : str) (skip : nat) : str :=
  match s with
  | [] => []
  | c :: t =>
      match skip with
      | S k => replace_go old new t k
      | O =>
          if startswith s old
          then new ++ replace_go old new t (length old - 1)
          else c :: replace_go old new t 0
      end
  end.

Definition str_replace (s old new : str) : str := replace_go old new s 0.

Fixpoint split_go (sep : char) (s : str) (cur : str) : list str :=
  match s with
  | [] => [rev cur]
  | c :: t =>
      if (c =? sep)%N then rev cur :: split_go sep t []
      else split_go sep t (c :: cur)
  end.

(** [s.split(sep)] for a one-character separator. *)
Definition str_split (s : str) (sep : char) : list str := split_go sep s [].

(** [sep.join(parts)] *)
Fixpoint str_join (sep : str) (parts : list str) : str :=
  match parts with
  | [] => []
  | [p] => p
  | p :: ps => p ++ sep ++ str_join sep ps
  end.

(** ** Character classes

    The interpreter's Unicode database decides [str.isspace], [str.isdigit],
    [str.isalpha], [str.lower] and the [re] classes [\s] and [\d] outside
    ASCII; inside ASCII the tables are written out. *)
Record unicode_tables := {
  uni_isspace : char -> bool;    (* White_Space of non-ASCII code points *)
  uni_isdecimal : char -> bool;  (* general category Nd, for [\d] *)
  uni_isdigit : char -> bool;    (* Numeric_Type Digit or Decimal, for [isdigit] *)
  uni_isalpha : char -> bool;    (* general category L*, for [isalpha] *)
  uni_lower : char -> str        (* full lower-case mapping *)
}.

(** Tables that know ASCII only. *)
Definition ascii_only : unicode_tables :=
  {| uni_isspace := fun _ => false;
     uni_isdecimal := fun _ => false;
     uni_isdigit := fun _ => false;
     uni_isalpha := fun _ => false;
     uni_lower := fun c => [c] |}.

(** A fragment of the real tables: NO-BREAK SPACE and IDEOGRAPHIC SPACE are
    white space, ARABIC-INDIC digits are decimal digits, SUPERSCRIPT TWO is a
    digit but not a decimal, the Greek and Cyrillic blocks are letters. *)
Definition sample_tables : unicode_tables :=
  {| uni_isspace := fun c => (c =? 160)%N || (c =? 12288)%N;
     uni_isdecimal := fun c => (1632 <=? c)%N && (c <=? 1641)%N;
     uni_isdigit := fun c =>
       ((1632 <=? c)%N && (c <=? 1641)%N) || (c =? 178)%N;
     uni_isalpha := fun c => (880 <=? c)%N && (c <=? 1279)%N;
     uni_lower := fun c => [c] |}.

Definition in_range (lo hi c : char) : bool := (lo <=? c)%N && (c <=? hi)%N.

Definition is_ascii (c : char) : bool := (c <? 128)%N.

(** ASCII white space of [str.isspace]: TAB, LF, VT, FF, CR, FS, GS, RS, US
    and SPACE. *)
Definition ascii_space (c : char) : bool := in_range 9 13 c || in_range 28 32 c.
Definition ascii_digit (c : char) : bool := in_range 48 57 c.
Definition ascii_upper (c : char) : bool := in_range 65 90 c.   (* [A-Z] *)
Definition ascii_lower (c : char) : bool := in_range 97 122 c.  (* [a-z] *)
Definition ascii_letter (c : char) : bool := ascii_upper c || ascii_lower c.

Definition one_of (s : string) (c : char) : bool :=
  existsb (fun x => (x =? c)%N) (str_of s).

Section Tables.

Variable U : unicode_tables.

(** [c.isspace()], also [\s] of [re] on [str] patterns. *)
Definition isspace (c : char) : bool :=
  if is_ascii c then ascii_space c else uni_isspace U c.

(** [\d] of [re] on [str] patterns. *)
Definition re_digit (c : char) : bool :=
  if is_ascii c then ascii_digit c else uni_isdecimal U c.

(** [c.isdigit()] *)
Definition isdigit (c : char) : bool :=
  if is_ascii c then ascii_digit c else uni_isdigit U c.

(** [c.isalpha()] *)
Definition isalpha (c : char) : bool :=
  if is_ascii c then ascii_letter c else uni_isalpha U c.

(** [s.lower()] *)
Definition str_lower (s : str) : str :=
  flat_map (fun c =>
    if is_ascii c then [if ascii_upper c then (c + 32)%N else c]
    else uni_lower U c) s.

Fixpoint lstrip (s : str) : str :=
  match s with
  | [] => []
  | c :: t => if isspace c then lstrip t else s
  end.

Definition rstrip (s : str) : str := rev (lstrip (rev s)).

(** [s.strip()] *)
Definition strip (s : str) : str := rstrip (lstrip s).

End Tables.

(** ** The [re] module

    Patterns are terms of [regex]; [rmatch] is a backtracking matcher in
    continuation-passing style that tries alternatives in the order of
    Python's [re]: the left branch of [|] first, as many iterations as
    possible for a greedy quantifier, as few as possible for a lazy one. *)
Inductive regex :=
| Lit (c : char)                (* a literal character *)
| Cls (p : char -> bool)        (* a character class *)
| Eps                           (* the empty pattern *)
| Seq (a b : regex)
| Alt (a b : regex)             (* [a|b] *)
| Star (a : regex)              (* [a*] *)
| LazyStar (a : regex)          (* [a*?] *)
| Group (a : regex)             (* the capturing group [(a)], group 1 *)
| Ahead (a : regex)             (* [(?=a)] *)
| Behind (p : char -> bool).    (* [(?<=[...])], one character wide *)

Definition Plus (a : regex) : regex := Seq a (Star a).   (* [a+] *)
Definition Opt (a : regex) : regex := Alt a Eps.         (* [a?] *)

(** A run of literal characters. *)
Definition lits (s : string) : regex :=
  fold_right (fun c r => Seq (Lit c) r) Eps (str_of s).

(** The matcher's position in the subject: the characters behind it (nearest
    first), those ahead of it, and the text captured by group 1. *)
Record mstate := {
  before : str;
  rest : str;
  group1 : option str
}.

Definition consume (st : mstate) (c : char) (t : str) : mstate :=
  {| before := c :: before st; rest := t; group1 := group1 st |}.

Definition capture (entry st : mstate) : mstate :=
  {| before := before st;
     rest := rest st;
     group1 := Some (firstn (length (rest entry) - length (rest st)) (rest entry)) |}.

(** A quantified body that consumed nothing ends the iteration; the counter
    of the two loops is the number of characters ahead, which every iteration
    lowers, so it reaches [O] only when nothing is left to consume. *)
Fixpoint rmatch (A : Type) (r : regex) (st : mstate) (k : mstate -> option A)
  {struct r} : option A :=
  match r with
  | Lit c =>
      match rest st with
      | x :: t => if (x =? c)%N then k (consume st x t) else None
      | [] => None
      end
  | Cls p =>
      match rest st with
      | x :: t => if p x then k (consume st x t) else None
      | [] => None
      end
  | Eps => k st
  | Seq a b => rmatch a st (fun st' => rmatch b st' k)
  | Alt a b =>
      match rmatch a st k with
      | Some x => Some x
      | None => rmatch b st k
      end
  | Star a =>
      (fix loop (n : nat) (st : mstate) {struct n} : option A :=
         match n with
         | O => k st
         | S n' =>
             match rmatch a st (fun st' =>
                     if length (rest st') <? length (rest st)
                     then loop n' st' else None) with
             | Some x => Some x
             | None => k st
             end
         end) (length (rest st)) st
  | LazyStar a =>
      (fix loop (n : nat) (st : mstate) {struct n} : option A :=
         match n with
         | O => k st
         | S n' =>
             match k st with
             | Some x => Some x
             | None =>
                 rmatch a st (fun st' =>
                   if length (rest st') <? length (rest st)
                   then loop n' st' else None)
             end
         end) (length (rest st)) st
  | Group a => rmatch a st (fun st' => k (capture st st'))
  | Ahead a =>
      match rmatch a st (fun _ => Some tt) with
      | Some _ => k st
      | None => None
      end
  | Behind p =>
      match before st with
      | c :: _ => if p c then k st else None
      | [] => None
      end
  end.

(** The match that starts at the current position, if there is one. *)
Definition match_at (r : regex) (bef s : str) : option mstate :=
  rmatch r {| before := bef; rest := s; group1 := None |} (fun st => Some st).

(** A replacement template: a constant string or [r"\1"]. *)
Inductive template :=
| Const (s : str)
| Group1.

Definition expand (t : template) (st : mstate) : str :=
  match t with
  | Const s => s
  | Group1 => match group1 st with Some g => g | None => [] end
  end.

(** [re.sub]: the subject is scanned from the left; where the pattern
    matches, the match is replaced and the scan resumes behind it. [skip]
    counts the characters of the current match that are still to be passed
    over. None of the patterns of this program matches the empty string; a
    match of length zero is treated as no match. *)
Fixpoint sub_go (r : regex) (t : template) (bef s : str) (skip : nat) : str :=
  match s with
  | [] => []
  | c :: tl =>
      match skip with
      | S k => sub_go r t (c :: bef) tl k
      | O =>
          match match_at r bef s with
          | Some st =>
              match length s - length (rest st) with
              | O => c :: sub_go r t (c :: bef) tl 0
              | S k => expand t st ++ sub_go r t (c :: bef) tl k
              end
          | None => c :: sub_go r t (c :: bef) tl 0
          end
      end
  end.

Definition re_sub (r : regex) (t : template) (s : str) : str :=
  sub_go r t [] s 0.

(** [re.split] for a pattern that is one capturing group: the pieces between
    the matches alternate with the captured matches. [cur] is the piece being
    collected, last character first. *)
Fixpoint split_re_go (r : regex) (bef s : str) (cur : str) (skip : nat)
  : list str :=
  match s with
  | [] => [rev cur]
  | c :: tl =>
      match skip with
      | S k => split_re_go r (c :: bef) tl cur k
      | O =>
          match match_at r bef s with
          | Some st =>
              match length s - length (rest st) with
              | O => split_re_go r (c :: bef) tl (c :: cur) 0
              | S k =>
                  rev cur :: expand Group1 st
                    :: split_re_go r (c :: bef) tl [] k
              end
          | None => split_re_go r (c :: bef) tl (c :: cur) 0
          end
      end
  end.

Definition re_split (r : regex) (s : str) : list str :=
  split_re_go r [] s [] 0.

(** [re.match(r, s)] and [m.group(0)]: the match at the start of [s]. *)
Definition re_match (r : regex) (s : str) : option str :=
  match match_at r [] s with
  | Some st => Some (firstn (length s - length (rest st)) s)
  | None => None
  end.

(** ** markdown_converter.py *)

(** A run of [MarkdownToWordConverter]: [(text, is_sub, is_sup)]. *)
Definition run := (str * bool * bool)%type.

Definition run_text (r : run) : str := fst (fst r).
Definition run_sub (r : run) : bool := snd (fst r).
Definition run_sup (r : run) : bool := snd r.

(** The tags ["block_formula"], ["inline_formula"] and ["text"]. *)
Inductive segment_type := seg_block_formula | seg_inline_formula | seg_text.

Definition segment := (segment_type * str)%type.

(** Glyphs written by [convert_latex_to_simple]. *)
Definition UPARROW : char := 8593.
Definition DOWNARROW : char := 8595.
Definition RIGHTARROW : char := 8594.
Definition LEFTRIGHTARROW : char := 8596.

Definition is_char (a : ascii) (c : char) : bool := (c =? ch a)%N.
Definition not_char (a : ascii) (c : char) : bool := negb (c =? ch a)%N.
Definition any_char (c : char) : bool := true.

(** The loop body's closure [flush_buf]. *)
Definition flush_buf (buf : str) (runs : list run) : str * list run :=
  match buf with
  | [] => (buf, runs)
  | _ :: _ => ([], runs ++ [(buf, false, false)])
  end.

(** The [while i < n] loop of [latex_like_to_runs]; [None] when the
    iteration bound [fuel] is used up. *)
Fixpoint latex_scan (fuel : nat) (content : str) (i : nat) (buf : str)
  (runs : list run) : option (list run) :=
  let n := length content in
  match fuel with
  | O => None
  | S fuel' =>
      if i <? n then
        match char_at content i with
        | None => None
        | Some char =>
            if one_of "_^" char then
              let is_sub := is_char "_" char in
              let i := i + 1 in
              if (i <? n) && (match char_at content i with
                              | Some c => is_char "{" c
                              | None => false
                              end) then
                match str_find content (ch "}") (i + 1) with
                | None => latex_scan fuel' content i (buf ++ [char]) runs
                | Some closing =>
                    let inner := substr content (i + 1) closing in
                    let '(buf, runs) := flush_buf buf runs in
                    latex_scan fuel' content (closing + 1) buf
                      (runs ++ [(inner, is_sub, negb is_sub)])
                end
              else if i <? n then
                match char_at content i with
                | None => None
                | Some c =>
                    let '(buf, runs) := flush_buf buf runs in
                    latex_scan fuel' content (i + 1) buf
                      (runs ++ [([c], is_sub, negb is_sub)])
                end
              else latex_scan fuel' content i (buf ++ [char]) runs
            else latex_scan fuel' content (i + 1) (buf ++ [char]) runs
        end
      else Some (snd (flush_buf buf runs))
  end.

Definition latex_like_to_runs (content : str) : option (list run) :=
  latex_scan (S (length content)) content 0 [] [].

Section Converter.

Variable U : unicode_tables.


(** [\\NAME\{([^}]+)\}] for [\mathrm] and [\text] *)
Definition re_unwrap (name : string) : regex :=
  Seq (Lit (ch "\")) (Seq (lits name) (Seq (Lit (ch "{"))
    (Seq (Group (Plus (Cls (not_char "}")))) (Lit (ch "}"))))).

(** [\\to|\\longrightarrow|-{1,2}>] *)
Definition re_to : regex :=
  Alt (lits "\to")
    (Alt (lits "\longrightarrow")
       (Seq (Lit (ch "-")) (Seq (Opt (Lit (ch "-"))) (Lit (ch ">"))))).

(** [\\leftrightarrow|<->|<=>] *)
Definition re_leftrightarrow : regex :=
  Alt (lits "\leftrightarrow") (Alt (lits "<->") (lits "<=>")).

(** [\\xrightarrow\[[^]]*\]\{[^}]*\}] *)
Definition re_xrightarrow : regex :=
  Seq (lits "\xrightarrow[")
    (Seq (Star (Cls (not_char "]")))
       (Seq (lits "]{") (Seq (Star (Cls (not_char "}"))) (Lit (ch "}"))))).

(** [\\begin\{[^}]+\}|\\end\{[^}]+\}] *)
Definition re_begin_end : regex :=
  Alt (Seq (lits "\begin{") (Seq (Plus (Cls (not_char "}"))) (Lit (ch "}"))))
      (Seq (lits "\end{") (Seq (Plus (Cls (not_char "}"))) (Lit (ch "}")))).

(** [\s*&\s*] *)
Definition re_ampersand : regex :=
  Seq (Star (Cls (isspace U))) (Seq (Lit (ch "&")) (Star (Cls (isspace U)))).

(** [\{\s*[^}]*\s*\}\s*\{=\}] *)
Definition re_ocr_equals : regex :=
  Seq (Lit (ch "{"))
    (Seq (Star (Cls (isspace U)))
       (Seq (Star (Cls (not_char "}")))
          (Seq (Star (Cls (isspace U)))
             (Seq (Lit (ch "}")) (Seq (Star (Cls (isspace U))) (lits "{=}")))))).

(** [\\[a-zA-Z]+\*?] *)
Definition re_command : regex :=
  Seq (Lit (ch "\")) (Seq (Plus (Cls ascii_letter)) (Opt (Lit (ch "*")))).

(** [\\[a-zA-Z]+\*?\{(G)\}] with [[^}]*] for the group [G] *)
Definition re_command_arg : regex :=
  Seq re_command
    (Seq (Lit (ch "{"))
       (Seq (Group (Star (Cls (not_char "}")))) (Lit (ch "}")))).

(** [[\t ]+] *)
Definition re_blanks : regex :=
  Plus (Cls (fun c => (c =? TAB)%N || is_char " " c)).

(** [ *\n *] *)
Definition re_newline : regex :=
  Seq (Star (Lit (ch " "))) (Seq (Lit NL) (Star (Lit (ch " ")))).

Definition convert_latex_to_simple (latex_content : str) : str :=
  let converted := latex_content in
  let converted := re_sub (re_unwrap "mathrm") Group1 converted in
  let converted := re_sub (re_unwrap "text") Group1 converted in
  let converted := re_sub (lits "\uparrow") (Const [UPARROW]) converted in
  let converted := re_sub (lits "\downarrow") (Const [DOWNARROW]) converted in
  let converted := re_sub re_to (Const [RIGHTARROW]) converted in
  let converted := re_sub re_leftrightarrow (Const [LEFTRIGHTARROW]) converted in
  let converted := re_sub re_xrightarrow (Const [RIGHTARROW]) converted in
  let converted := re_sub re_begin_end (Const []) converted in
  let converted := re_sub (lits "\\") (Const [NL]) converted in
  let converted := re_sub re_ampersand (Const (str_of " ")) converted in
  let converted := re_sub re_ocr_equals (Const (str_of " = ")) converted in
  let converted := re_sub re_command_arg Group1 converted in
  let converted := re_sub re_command (Const []) converted in
  let converted := remove_char (ch "}") (remove_char (ch "{") converted) in
  let converted := re_sub re_blanks (Const (str_of " ")) converted in
  let converted := re_sub re_newline (Const [NL]) converted in
  strip U converted.

(** [(\$\$[\s\S]*?\$\$)] *)
Definition re_block : regex :=
  Group (Seq (lits "$$") (Seq (LazyStar (Cls any_char)) (lits "$$"))).

(** [(\$[^$]+\$)] *)
Definition re_inline : regex :=
  Group (Seq (Lit (ch "$"))
           (Seq (Plus (Cls (not_char "$"))) (Lit (ch "$")))).

Definition nonempty (s : str) : bool :=
  match s with [] => false | _ :: _ => true end.

(** The inner [for inline in inline_parts] loop. *)
Definition parse_inline (inline : str) : list segment :=
  if negb (nonempty inline) then []
  else if startswith inline (str_of "$") && endswith inline (str_of "$") then
    let latex_content := slice inline 1 (-1) in
    [(seg_inline_formula, convert_latex_to_simple latex_content)]
  else if nonempty (strip U inline) then [(seg_text, inline)]
  else [].

(** The body of [for part in parts]. *)
Definition parse_part (part : str) : list segment :=
  if negb (nonempty part) then []
  else if startswith part (str_of "$$") && endswith part (str_of "$$") then
    let latex_content := strip U (slice part 2 (-2)) in
    let converted := convert_latex_to_simple latex_content in
    flat_map (fun line =>
                if nonempty (strip U line) then [(seg_block_formula, strip U line)]
                else [])
             (str_split converted NL)
  else flat_map parse_inline (re_split re_inline part).

Definition parse_content (text : str) : list segment :=
  flat_map parse_part (re_split re_block text).

(** [(?<=[...])\s+(?=[...])] *)
Definition re_gap (behind ahead : char -> bool) : regex :=
  Seq (Behind behind) (Seq (Plus (Cls (isspace U))) (Ahead (Cls ahead))).

Definition letter_or_open (c : char) : bool := ascii_letter c || one_of "([{" c.

Definition normalize_chem_spacing (text : str) : str :=
  let s := text in
  let s := re_sub (re_gap ascii_letter (re_digit U)) (Const []) s in
  let s := re_sub (re_gap (re_digit U) letter_or_open) (Const []) s in
  let s := re_sub (re_gap ascii_lower ascii_upper) (Const []) s in
  let s := re_sub (re_gap (one_of ")]}") (re_digit U)) (Const []) s in
  strip U (re_sub (Plus (Cls (isspace U))) (Const (str_of " ")) s).

(** The test shared by the loops of [_split_for_subscripts]:
    [text[i].isdigit() and i > 0 and (text[i - 1].isalpha() or text[i - 1] in ")]}")] *)
Definition subscript_digit_at (text : str) (i : nat) : bool :=
  match char_at text i with
  | Some c =>
      isdigit U c && (0 <? i) &&
      match char_at text (i - 1) with
      | Some p => isalpha U p || one_of ")]}" p
      | None => false
      end
  | None => false
  end.

(** [while j < n and text[j].isdigit(): j += 1] *)
Fixpoint digits_end (fuel : nat) (text : str) (j : nat) : option nat :=
  match fuel with
  | O => None
  | S fuel' =>
      if (j <? length text) &&
         match char_at text j with Some c => isdigit U c | None => false end
      then digits_end fuel' text (j + 1)
      else Some j
  end.

(** [while i < n and not (...): i += 1] *)
Fixpoint plain_end (fuel : nat) (text : str) (i : nat) : option nat :=
  match fuel with
  | O => None
  | S fuel' =>
      if (i <? length text) && negb (subscript_digit_at text i)
      then plain_end fuel' text (i + 1)
      else Some i
  end.

Fixpoint split_scan (fuel : nat) (text : str) (i : nat) (runs : list run)
  : option (list run) :=
  let n := length text in
  match fuel with
  | O => None
  | S fuel' =>
      if i <? n then
        if subscript_digit_at text i then
          match digits_end (S n) text i with
          | None => None
          | Some j =>
              split_scan fuel' text j (runs ++ [(substr text i j, true, false)])
          end
        else
          let start := i in
          match plain_end (S n) text (i + 1) with
          | None => None
          | Some i =>
              split_scan fuel' text i
                (runs ++ [(substr text start i, false, false)])
          end
      else Some runs
  end.

Definition _split_for_subscripts (text : str) : option (list run) :=
  split_scan (S (length text)) text 0 [].

(** The loop [for text, is_sub, is_sup in base_runs] of [_make_runs]. *)
Fixpoint make_runs_loop (base_runs final_runs : list run)
  : option (list run) :=
  match base_runs with
  | [] => Some final_runs
  | (text, is_sub, is_sup) :: more =>
      if is_sub || is_sup
      then make_runs_loop more (final_runs ++ [(text, is_sub, is_sup)])
      else
        match _split_for_subscripts text with
        | None => None
        | Some rs => make_runs_loop more (final_runs ++ rs)
        end
  end.

Definition _make_runs (content : str) : option (list run) :=
  let normalized := normalize_chem_spacing content in
  match latex_like_to_runs normalized with
  | None => None
  | Some base_runs => make_runs_loop base_runs []
  end.


(** *** The document of python-docx

    A document is its list of paragraphs; a paragraph object held by the
    program is the paragraph's position in that list, so that a run added
    through the reference lands in the document. The package written by
    [document.save] and the Normal style are outside the model. *)
Record docx_run := {
  r_text : str;
  r_font_name : str;
  r_font_size : N;
  r_subscript : bool;
  r_superscript : bool
}.

Record paragraph := {
  p_center : bool;              (* [alignment = WD_ALIGN_PARAGRAPH.CENTER] *)
  p_runs : list docx_run
}.

Definition document := list paragraph.

Definition FONT_NAME : str := str_of "Open Sans".
Definition FONT_SIZE_PT : N := 18.

(** [document.add_paragraph()]: the new paragraph is the last one. *)
Definition add_paragraph (d : document) : document * nat :=
  (d ++ [{| p_center := false; p_runs := [] |}], length d).

Fixpoint update_paragraph (d : document) (p : nat) (f : paragraph -> paragraph)
  : document :=
  match d, p with
  | [], _ => []
  | x :: d', O => f x :: d'
  | x :: d', S p' => x :: update_paragraph d' p' f
  end.

Definition set_center (d : document) (p : nat) : document :=
  update_paragraph d p (fun x => {| p_center := true; p_runs := p_runs x |}).

(** [run = paragraph.add_run(text)], [_apply_run_style(run)] and the two
    conditional assignments to [run.font]. *)
Definition styled_run (r : run) : docx_run :=
  {| r_text := run_text r;
     r_font_name := FONT_NAME;
     r_font_size := FONT_SIZE_PT;
     r_subscript := run_sub r;
     r_superscript := run_sup r |}.

Definition add_runs (d : document) (p : nat) (rs : list run) : document :=
  fold_left
    (fun d r =>
       update_paragraph d p
         (fun x => {| p_center := p_center x;
                      p_runs := p_runs x ++ [styled_run r] |}))
    rs d.

(** The state of the loop of [create_word_document]: the document and
    [current_paragraph]. *)
Definition assembler := (document * option nat)%type.

Definition open_paragraph (st : assembler) : document * nat :=
  match snd st with
  | Some p => (fst st, p)
  | None => add_paragraph (fst st)
  end.

(** The loop [for index, line in enumerate(lines)] of the text branch;
    [nlines] is [len(lines)]. *)
Fixpoint text_lines (nlines index : nat) (lines : list str) (st : assembler)
  : option assembler :=
  match lines with
  | [] => Some st
  | line :: more =>
      let line := strip U line in
      let after :=
        if nonempty line then
          let '(d, p) := open_paragraph st in
          match _make_runs line with
          | None => None
          | Some rs => Some (add_runs d p rs, Some p)
          end
        else Some st in
      match after with
      | None => None
      | Some (d, current_paragraph) =>
          let current_paragraph :=
            if (index <? nlines - 1) && nonempty line then None
            else current_paragraph in
          text_lines nlines (S index) more (d, current_paragraph)
      end
  end.

(** The body of [for segment_type, content in segments]. *)
Definition assemble_segment (st : assembler) (seg : segment)
  : option assembler :=
  let '(kind, content) := seg in
  match kind with
  | seg_block_formula =>
      let '(d, p) := add_paragraph (fst st) in
      let d := set_center d p in
      match _make_runs content with
      | None => None
      | Some rs => Some (add_runs d p rs, None)
      end
  | seg_inline_formula =>
      let '(d, p) := open_paragraph st in
      match _make_runs content with
      | None => None
      | Some rs => Some (add_runs d p rs, Some p)
      end
  | seg_text =>
      let lines := str_split content NL in
      text_lines (length lines) 0 lines st
  end.

Fixpoint assemble (segments : list segment) (st : assembler)
  : option assembler :=
  match segments with
  | [] => Some st
  | seg :: more =>
      match assemble_segment st seg with
      | None => None
      | Some st' => assemble more st'
      end
  end.

(** [create_word_document], up to the serialisation of the document. *)
Definition create_word_document (markdown_text : str) : option document :=
  let segments := parse_content markdown_text in
  match assemble segments ([], None) with
  | None => None
  | Some (d, _) => Some d
  end.

End Converter.

(** ** pipeline.py *)

Inductive exn_class :=
| ChemistryOCRError
| SDKError
| IndexError
| OtherException.

(** An exception object: its class, its [status_code] attribute when it has
    one, and [str(e)]. *)
Record exn := {
  exn_type : exn_class;
  status_code : option Z;
  exn_str : str
}.

Inductive outcome (A : Type) :=
| Return (a : A)
| Raise (e : exn)
| OutOfFuel.

Arguments Return {A} a.
Arguments Raise {A} e.
Arguments OutOfFuel {A}.

Definition index_error : exn :=
  {| exn_type := IndexError;
     status_code := None;
     exn_str := str_of "string index out of range" |}.

Definition DOC_FONT_NAME : str := str_of "Open Sans".
Definition DOC_FONT_SIZE_PT : N := 18.

Definition PLUS_MINUS : char := 177.
Definition MINUS_PLUS : char := 8723.

(** The loop [for i in range(start, len(s))] of [_find_matching_brace] over
    [tail = s[i:]]; [None] stands for [-1]. *)
Fixpoint matching_brace_loop (tail : str) (i : nat) (depth : Z) : option nat :=
  match tail with
  | [] => None
  | c :: tail' =>
      if is_char "{" c then matching_brace_loop tail' (S i) (depth + 1)
      else if is_char "}" c then
        let depth := (depth - 1)%Z in
        if (depth =? 0)%Z then Some i
        else matching_brace_loop tail' (S i) depth
      else matching_brace_loop tail' (S i) depth
  end.

Definition _find_matching_brace (s : str) (start : nat) : option nat :=
  matching_brace_loop (skipn start s) start 0.

(** [_add_run]: the paragraph is the list of its runs. *)
Definition _add_run (par : list docx_run) (text : str)
  (superscript subscript : bool) : list docx_run :=
  match text with
  | [] => par
  | _ :: _ =>
      par ++ [{| r_text := text;
                 r_font_name := DOC_FONT_NAME;
                 r_font_size := DOC_FONT_SIZE_PT;
                 r_subscript := subscript;
                 r_superscript := superscript |}]
  end.

(** The closure [flush] of [_add_parsed_line]. *)
Definition flush (normal : str) (par : list docx_run) : str * list docx_run :=
  match normal with
  | [] => (normal, par)
  | _ :: _ => ([], _add_run par normal false false)
  end.

Section Pipeline.

Variable U : unicode_tables.

(** [[+\-±∓]?\d+] *)
Definition re_signed_digits : regex :=
  Seq (Opt (Cls (fun c => one_of "+-" c || (c =? PLUS_MINUS)%N
                          || (c =? MINUS_PLUS)%N)))
      (Plus (Cls (re_digit U))).

(** [\d+] *)
Definition re_digits : regex := Plus (Cls (re_digit U)).

(** The branch of [_add_parsed_line] for a marker that no brace follows: the
    styled content and the index behind it. [line[i]] raises when the marker
    is the last character of the line. *)
Definition unbraced_content (line : str) (i : nat) (is_super : bool)
  : outcome (str * nat) :=
  match re_match (if is_super then re_signed_digits else re_digits)
          (suffix_from line i) with
  | Some content => Return (content, i + length content)
  | None =>
      match char_at line i with
      | Some c => Return ([c], i + 1)
      | None => Raise index_error
      end
  end.

(** The [while i < n] loop of [_add_parsed_line]. The paragraph is an object
    the caller holds, so the runs added before an exception stay in it. *)
Fixpoint parsed_line_loop (fuel : nat) (line : str) (i : nat) (normal : str)
  (par : list docx_run) : list docx_run * outcome unit :=
  let n := length line in
  match fuel with
  | O => (par, OutOfFuel)
  | S fuel' =>
      if i <? n then
        match char_at line i with
        | None => (par, Raise index_error)
        | Some c =>
            if is_char "^" c || is_char "_" c then
              let is_super := is_char "^" c in
              let i := i + 1 in
              let found :=
                if (i <? n) && (match char_at line i with
                                | Some x => is_char "{" x
                                | None => false
                                end) then
                  match _find_matching_brace line i with
                  | None => None
                  | Some j => Some (Return (substr line (i + 1) j, j + 1))
                  end
                else Some (unbraced_content line i is_super) in
              match found with
              | None => parsed_line_loop fuel' line i (normal ++ [c]) par
              | Some (Return (content, i)) =>
                  let '(normal, par) := flush normal par in
                  parsed_line_loop fuel' line i normal
                    (_add_run par content is_super (negb is_super))
              | Some (Raise e) => (par, Raise e)
              | Some OutOfFuel => (par, OutOfFuel)
              end
            else parsed_line_loop fuel' line (i + 1) (normal ++ [c]) par
        end
      else (snd (flush normal par), Return tt)
  end.

Definition _add_parsed_line (par : list docx_run) (line : str)
  : list docx_run * outcome unit :=
  parsed_line_loop (S (length line)) line 0 [] par.

(** The loop [for raw_line in text.split('\n')] of [create_docx_bytes]. *)
Fixpoint docx_lines (lines : list str) (doc : document) : outcome document :=
  match lines with
  | [] => Return doc
  | raw_line :: more =>
      let par : list docx_run := [] in
      match (if nonempty raw_line then _add_parsed_line par raw_line
             else (par, Return tt)) with
      | (par, Return _) =>
          docx_lines more (doc ++ [{| p_center := false; p_runs := par |}])
      | (_, Raise e) => Raise e
      | (_, OutOfFuel) => OutOfFuel
      end
  end.

(** [create_docx_bytes], up to the serialisation of the document. *)
Definition create_docx_bytes (text : str) : outcome document :=
  docx_lines (str_split text NL) [].

(** *** The Mistral client *)

Inductive chunk :=
| TextChunk (text : str)
| ImageURLChunk (image_url : str).

(** The arguments of [client.chat.complete]. *)
Record chat_request := {
  req_model : str;
  req_system : list chunk;
  req_user : list chunk
}.

(** The [content] attribute of a message: a string, a list of chunks, each
    with its [text] attribute if it has one, or anything else. *)
Inductive message_content :=
| ContentStr (s : str)
| ContentList (texts : list (option str))
| ContentOther.

(** A response object, as far as the program probes it: [choices] if the
    attribute exists, in each choice [message] and in it [content];
    [output_text] if the attribute exists; and [str(response)]. *)
Record response := {
  choices : option (list (option message_content));
  output_text : option (option str);
  response_str : str
}.

Inductive reply :=
| Reply (r : response)
| Failure (e : exn).

(** What the program does to the world, in order. *)
Inductive event :=
| Call (r : chat_request)
| Sleep (seconds : Q).

Definition trace := list event.

(** The service answers a request in the light of everything that happened
    before it. *)
Variable client_chat_complete : trace -> chat_request -> reply.

(** [base64.b64encode(data).decode()] *)
Variable b64encode : list Byte.byte -> str.

(** The two prompt texts. *)
Variable SYSTEM_PROMPT_CHEMISTRY_VIT : str.
Variable SYSTEM_PROMPT_TEXT_REFINER : str.

(** Whether [from mistralai.models import SDKError] succeeded; otherwise
    [SDKError] is [Exception]. *)
Variable sdk_error_imported : bool.

Definition ocr_error (msg : str) : exn :=
  {| exn_type := ChemistryOCRError; status_code := None; exn_str := msg |}.

Definition _to_data_url (data : list Byte.byte) (mime_type : str) : str :=
  str_of "data:" ++ mime_type ++ str_of ";base64," ++ b64encode data.

(** The texts of the chunks whose [text] attribute is a non-empty string. *)
Definition chunk_texts (texts : list (option str)) : list str :=
  flat_map (fun t => match t with
                     | Some (c :: s) => [c :: s]
                     | _ => []
                     end) texts.

(** The probing of [choices[0].message.content], shared by the two callers. *)
Definition first_choice_text (resp : response) : option str :=
  match choices resp with
  | Some (Some (ContentStr s) :: _) => Some s
  | Some (Some (ContentList texts) :: _) =>
      match chunk_texts texts with
      | [] => None
      | parts => Some (str_join [NL] parts)
      end
  | _ => None
  end.

Definition vit_response_text (resp : response) : str :=
  let text := first_choice_text resp in
  let text :=
    match text, output_text resp with
    | None, Some t => t
    | _, _ => text
    end in
  match text with
  | Some (c :: s) => c :: s
  | _ => response_str resp
  end.

Definition _vit_extract_text (data : list Byte.byte) (mime_type model : str)
  (tr : trace) : outcome str * trace :=
  match data with
  | [] => (Raise (ocr_error (str_of "Empty image payload")), tr)
  | _ :: _ =>
      let image_data_url := _to_data_url data mime_type in
      let request :=
        {| req_model := model;
           req_system := [TextChunk SYSTEM_PROMPT_CHEMISTRY_VIT];
           req_user := [TextChunk (str_of "Extract Markdown as instructed.");
                        ImageURLChunk image_data_url] |} in
      match client_chat_complete tr request with
      | Failure exc =>
          (Raise (ocr_error (str_of "Vision request failed: " ++ exn_str exc)),
           tr ++ [Call request])
      | Reply vit_response =>
          (Return (vit_response_text vit_response), tr ++ [Call request])
      end
  end.

Definition refiner_response_text (resp : response) : str :=
  let out := first_choice_text resp in
  let out :=
    match out, output_text resp with
    | Some (_ :: _), _ => out
    | _, Some t => t
    | _, None => out
    end in
  match out with
  | Some (c :: s) => c :: s
  | _ => response_str resp
  end.

(** [except SDKError] catches [e]. *)
Definition is_sdk_error (e : exn) : bool :=
  match exn_type e with
  | SDKError => true
  | _ => negb sdk_error_imported
  end.

(** [status == 429 or "Status 429" in msg or "capacity" in msg.lower()] *)
Definition is_rate_limit (e : exn) : bool :=
  let status := status_code e in
  let msg := exn_str e in
  match status with Some s => (s =? 429)%Z | None => false end
  || contains msg (str_of "Status 429")
  || contains (str_lower U msg) (str_of "capacity").

(** [base_sleep * (2 ** attempt)] *)
Definition sleep_seconds (base_sleep : Q) (attempt : nat) : Q :=
  Qmult base_sleep (inject_Z (2 ^ Z.of_nat attempt)).

Definition refiner_request (raw_text model_name : str) : chat_request :=
  {| req_model := model_name;
     req_system := [TextChunk SYSTEM_PROMPT_TEXT_REFINER];
     req_user := [TextChunk raw_text] |}.

(** The loop [for attempt in range(max_retries)] of
    [_refine_text_with_retry] and the lines behind it. *)
Fixpoint refine_loop (raw_text model_name : str) (base_sleep : Q)
  (attempts : list nat) (last_err : option exn) (tr : trace)
  : outcome str * trace :=
  let after_loop (last_err : option exn) : outcome str :=
    match last_err with
    | Some e => Raise e
    | None => Return raw_text
    end in
  match attempts with
  | [] => (after_loop last_err, tr)
  | attempt :: more =>
      let request := refiner_request raw_text model_name in
      match client_chat_complete tr request with
      | Reply resp => (Return (refiner_response_text resp), tr ++ [Call request])
      | Failure e =>
          let tr := tr ++ [Call request] in
          if is_sdk_error e then
            if is_rate_limit e then
              let sleep_s := sleep_seconds base_sleep attempt in
              refine_loop raw_text model_name base_sleep more (Some e)
                (tr ++ [Sleep sleep_s])
            else (Raise e, tr)
          else (after_loop (Some e), tr)
      end
  end.

Definition range (n : Z) : list nat := seq 0 (Z.to_nat n).

Definition _refine_text_with_retry (raw_text model_name : str)
  (max_retries : Z) (base_sleep : Q) (tr : trace) : outcome str * trace :=
  refine_loop raw_text model_name base_sleep (range max_retries) None tr.

Definition _final_cleanup (text : str) : str :=
  let cleaned := remove_char (ch "$") (str_replace text (str_of "\n") [NL]) in
  cleaned.

Definition FALLBACK_MODEL : str := str_of "pixtral-12b".
Definition REFINER_MODEL : str := str_of "mistral-small-latest".

(** The first [try] of [process_image_bytes_vit]. *)
Definition extract_with_fallback (data : list Byte.byte)
  (mime_type model : str) (tr : trace) : outcome str * trace :=
  let selected_model := model in
  match _vit_extract_text data mime_type selected_model tr with
  | (Raise e, tr') =>
      match exn_type e with
      | ChemistryOCRError =>
          if negb (str_eqb selected_model FALLBACK_MODEL)
          then _vit_extract_text data mime_type FALLBACK_MODEL tr'
          else (Raise e, tr')
      | _ => (Raise e, tr')
      end
  | other => other
  end.

(** The second [try]: every exception of the refiner leaves the draft. *)
Definition refine_or_draft (draft_text : str) (tr : trace) : str * trace :=
  match _refine_text_with_retry draft_text REFINER_MODEL 3 1 tr with
  | (Return refined_text, tr') => (refined_text, tr')
  | (_, tr') => (draft_text, tr')
  end.

Definition process_image_bytes_vit (data : list Byte.byte)
  (mime_type model : str) (tr : trace) : outcome document * trace :=
  match extract_with_fallback data mime_type model tr with
  | (Return draft_text, tr') =>
      let '(refined_text, tr'') := refine_or_draft draft_text tr' in
      let cleaned := _final_cleanup refined_text in
      (create_docx_bytes cleaned, tr'')
  | (Raise e, tr') => (Raise e, tr')
  | (OutOfFuel, tr') => (OutOfFuel, tr')
  end.

End Pipeline.

(** ** Vocabulary of the properties *)

(** What a pattern can match: [Matches r bef w aft] says that [r] matches
    the characters [w] when [bef] lies behind them (nearest first) and [aft]
    ahead. *)
Inductive Matches : regex -> str -> str -> str -> Prop :=
| M_Lit c bef aft : Matches (Lit c) bef [c] aft
| M_Cls (p : char -> bool) x bef aft :
    p x = true -> Matches (Cls p) bef [x] aft
| M_Eps bef aft : Matches Eps bef [] aft
| M_Seq a b bef w1 w2 aft :
    Matches a bef w1 (w2 ++ aft) ->
    Matches b (rev w1 ++ bef) w2 aft ->
    Matches (Seq a b) bef (w1 ++ w2) aft
| M_AltL a b bef w aft : Matches a bef w aft -> Matches (Alt a b) bef w aft
| M_AltR a b bef w aft : Matches b bef w aft -> Matches (Alt a b) bef w aft
| M_Star0 a bef aft : Matches (Star a) bef [] aft
| M_StarS a bef w1 w2 aft :
    Matches a bef w1 (w2 ++ aft) ->
    Matches (Star a) (rev w1 ++ bef) w2 aft ->
    Matches (Star a) bef (w1 ++ w2) aft
| M_Lazy0 a bef aft : Matches (LazyStar a) bef [] aft
| M_LazyS a bef w1 w2 aft :
    Matches a bef w1 (w2 ++ aft) ->
    Matches (LazyStar a) (rev w1 ++ bef) w2 aft ->
    Matches (LazyStar a) bef (w1 ++ w2) aft
| M_Group a bef w aft : Matches a bef w aft -> Matches (Group a) bef w aft
| M_Ahead a bef w aft :
    Matches a bef w aft -> Matches (Ahead a) bef [] (w ++ aft)
| M_Behind (p : char -> bool) c bef aft :
    p c = true -> Matches (Behind p) (c :: bef) [] aft.

(** The matcher's position once it has passed over [w]. *)
Definition moved (st : mstate) (w aft : str) (g : option str) : mstate :=
  {| before := rev w ++ before st; rest := aft; group1 := g |}.

(** [requires p r]: every match of [r] holds a literal character of the
    pattern that satisfies [p]. *)
Fixpoint requires (p : char -> bool) (r : regex) : bool :=
  match r with
  | Lit c => p c
  | Seq a b => requires p a || requires p b
  | Alt a b => requires p a && requires p b
  | Group a => requires p a
  | Cls _ | Eps | Star _ | LazyStar _ | Ahead _ | Behind _ => false
  end.

(** [nullable r]: the shape of [r] allows a match of length zero. *)
Fixpoint nullable (r : regex) : bool :=
  match r with
  | Lit _ | Cls _ => false
  | Seq a b => nullable a && nullable b
  | Alt a b => nullable a || nullable b
  | Group a => nullable a
  | Eps | Star _ | LazyStar _ | Ahead _ | Behind _ => true
  end.

(** [maximal p aft]: a run of [p] characters cannot be extended into [aft]. *)
Definition maximal (p : char -> bool) (aft : str) : Prop :=
  match aft with
  | [] => True
  | y :: _ => p y = false
  end.

(** The invariant of a run: not both flags. *)
Definition exclusive (r : run) : Prop := run_sub r && run_sup r = false.

Definition exclusive_docx (r : docx_run) : Prop :=
  r_subscript r && r_superscript r = false.

(** A run that the explicit scan styled. *)
Definition styled (r : run) : bool := run_sub r || run_sup r.

(** A string seen as its characters that are not white space, each with the
    white space in front of it, and the white space at the end. *)
Definition tokens := list (str * char).

Fixpoint untok (l : tokens) (tail : str) : str :=
  match l with
  | [] => tail
  | (w, c) :: l' => w ++ c :: untok l' tail
  end.

(** What a gap substitution does to the tokens: the gap in front of [c] goes
    when [R] relates the character before the gap to [c]. *)
Fixpoint gap_rule (R : char -> char -> bool) (prev : option char) (l : tokens)
  : tokens :=
  match l with
  | [] => []
  | (w, c) :: l' =>
      ((if match prev with Some p => R p c | None => false end
        then [] else w), c) :: gap_rule R (Some c) l'
  end.

Definition collapse_ws (w : str) : str :=
  match w with
  | [] => []
  | _ :: _ => str_of " "
  end.

Definition collapse_gaps (l : tokens) : tokens :=
  map (fun t => (collapse_ws (fst t), snd t)) l.

Definition drop_first_gap (l : tokens) : tokens :=
  match l with
  | [] => []
  | (_, c) :: l' => ([], c) :: l'
  end.

(** The normal form of the tokens: every rule applied, gaps collapsed, no
    gap in front. *)
Definition norm_tokens (R : char -> char -> bool) (l : tokens) : tokens :=
  drop_first_gap (collapse_gaps (gap_rule R None l)).

Definition pair_rule (behind ahead : char -> bool) (p c : char) : bool :=
  behind p && ahead c.

Definition either (R1 R2 : char -> char -> bool) (p c : char) : bool :=
  R1 p c || R2 p c.

(** The characters that [convert_latex_to_simple] gives a meaning to:
    backslash, braces, ampersand and the head of the arrows. *)
Definition special (c : char) : bool := one_of "\{}&>" c.

Definition plain (s : str) : Prop := Forall (fun c => special c = false) s.

(** The contents of the segments, one behind the other. *)
Definition contents (l : list segment) : str := concat (map snd l).

(** A paragraph that holds the runs of one line and nothing else. *)
Definition own_paragraph (rs : list run) : paragraph :=
  {| p_center := false; p_runs := map styled_run rs |}.

(** What a text segment whose non-blank lines tokenize to [paras] leaves
    behind: the first line joins the open paragraph, or opens one; every
    other line has a paragraph of its own; a paragraph stays open only
    behind a non-blank last line. *)
Definition text_segment_outcome (st : assembler) (paras : list (list run))
  (last_nonblank : bool) : assembler :=
  match paras with
  | [] => st
  | first :: others =>
      let '(d, p) := open_paragraph st in
      let d' := add_runs d p first ++ map own_paragraph others in
      (d', if last_nonblank
           then Some (match others with [] => p | _ :: _ => length d' - 1 end)
           else None)
  end.

(** The request that [_vit_extract_text] sends. *)
Definition vit_request (b64encode : list Byte.byte -> str) (prompt : str)
  (data : list Byte.byte) (mime_type model : str) : chat_request :=
  {| req_model := model;
     req_system := [TextChunk prompt];
     req_user := [TextChunk (str_of "Extract Markdown as instructed.");
                  ImageURLChunk (_to_data_url b64encode data mime_type)] |}.

(** The events of attempts that all ran into the rate limit. *)
Definition rate_limited_attempts (request : chat_request) (base_sleep : Q)
  (attempts : list nat) : trace :=
  flat_map (fun attempt =>
              [Call request; Sleep (sleep_seconds base_sleep attempt)])
           attempts.

Definition is_call (e : event) : bool :=
  match e with Call _ => true | Sleep _ => false end.

Definition calls (tr : trace) : nat := length (filter is_call tr).

Definition plain_answer (s : str) : response :=
  {| choices := Some [Some (ContentStr s)];
     output_text := None;
     response_str := str_of "<response>" |}.

(** A service that refuses the refiner's model with status 429 and answers
    every other model. *)
Definition busy_refiner (answer : response) (tr : trace) (r : chat_request)
  : reply :=
  if str_eqb (req_model r) (str_of "mistral-small-latest")
  then Failure {| exn_type := SDKError; status_code := Some 429%Z;
                  exn_str := str_of "Status 429" |}
  else Reply answer.

(** A service on which only the fallback model works. *)
Definition only_fallback (answer : response) (tr : trace) (r : chat_request)
  : reply :=
  if str_eqb (req_model r) (str_of "pixtral-12b")
  then Reply answer
  else Failure {| exn_type := OtherException; status_code := None;
                  exn_str := str_of "model unavailable" |}.

(** The depth of [_find_matching_brace] behind the characters [w], from the
    depth [d]. *)
Fixpoint depth_after (w : str) (d : Z) : Z :=
  match w with
  | [] => d
  | c :: w' =>
      depth_after w' (if is_char "{" c then d + 1
                      else if is_char "}" c then d - 1 else d)%Z
  end.

Section Vocabulary.

Variable U : unicode_tables.

Definition nonspace (c : char) : bool := negb (isspace U c).

Definition all_space (w : str) : Prop :=
  Forall (fun c => isspace U c = true) w.

(** The characters of a string that are not white space, in order. *)
Definition nonspace_chars (s : str) : str := filter nonspace s.

(** The characters that are neither white space nor the delimiter. *)
Definition kept (c : char) : bool := nonspace c && negb (c =? ch "$")%N.

Definition kept_chars (s : str) : str := filter kept s.

Definition wf_tokens (l : tokens) (tail : str) : Prop :=
  Forall (fun t => all_space (fst t) /\ isspace U (snd t) = false) l /\
  all_space tail.

(** The four rules of [normalize_chem_spacing] as one relation between the
    characters on the two sides of a gap. *)
Definition chem_rule : char -> char -> bool :=
  either (pair_rule ascii_letter (re_digit U))
    (either (pair_rule (re_digit U) letter_or_open)
       (either (pair_rule ascii_lower ascii_upper)
          (pair_rule (one_of ")]}") (re_digit U)))).

(** What [_make_runs] does with one run of the explicit scan. *)
Definition final_piece (r : run) (piece : list run) : Prop :=
  if styled r then piece = [r]
  else _split_for_subscripts U (run_text r) = Some piece.

Definition nonblank_lines (lines : list str) : list str :=
  filter nonempty (map (strip U) lines).

Definition last_nonblank (lines : list str) : bool :=
  nonempty (strip U (last lines [])).

(** The text branch as the specification words it: a non-blank line is
    appended to the open paragraph, a blank line closes it. *)
Fixpoint text_lines_as_claimed (lines : list str) (st : assembler)
  : option assembler :=
  match lines with
  | [] => Some st
  | line :: more =>
      let line := strip U line in
      if nonempty line then
        let '(d, p) := open_paragraph st in
        match _make_runs U line with
        | None => None
        | Some rs => text_lines_as_claimed more (add_runs d p rs, Some p)
        end
      else text_lines_as_claimed more (fst st, None)
  end.

Variable client_chat_complete : trace -> chat_request -> reply.
Variable sdk_error_imported : bool.

(** The request is refused for the rate limit, whatever happened before. *)
Definition always_rate_limited (request : chat_request) : Prop :=
  forall tr, exists e,
    client_chat_complete tr request = Failure e /\
    is_sdk_error sdk_error_imported e = true /\ is_rate_limit U e = true.

End Vocabulary.
(** ** The matcher finds only matches *)

Lemma moved_nil st : moved st [] (rest st) (group1 st) = st.
Proof. now destruct st. Qed.

Lemma moved_moved st w1 a1 g1 w2 a2 g2 :
  moved (moved st w1 a1 g1) w2 a2 g2 = moved st (w1 ++ w2) a2 g2.
Proof. unfold moved; simpl. now rewrite rev_app_distr, app_assoc. Qed.

Lemma rmatch_sound (r : regex) :
  forall (A : Type) (st : mstate) (k : mstate -> option A) (x : A),
    rmatch r st k = Some x ->
    exists w aft g,
      rest st = w ++ aft /\ Matches r (before st) w aft /\
      k (moved st w aft g) = Some x.
Proof.
  induction r as [c|p| |a IHa b IHb|a IHa b IHb|a IHa|a IHa|a IHa|a IHa|p];
    intros A st k x H; simpl in H.
  - destruct (rest st) as [|y t] eqn:E; [discriminate|].
    destruct (N.eqb_spec y c); [subst y|discriminate].
    exists [c], t, (group1 st). repeat split; auto. constructor.
  - destruct (rest st) as [|y t] eqn:E; [discriminate|].
    destruct (p y) eqn:P; [|discriminate].
    exists [y], t, (group1 st). repeat split; auto. now constructor.
  - exists [], (rest st), (group1 st). rewrite moved_nil.
    repeat split; auto. constructor.
  - apply IHa in H. destruct H as (w1 & a1 & g1 & E1 & M1 & H).
    apply IHb in H. destruct H as (w2 & a2 & g2 & E2 & M2 & H).
    simpl in E2, M2. subst a1. rewrite moved_moved in H.
    exists (w1 ++ w2), a2, g2. rewrite <- app_assoc.
    repeat split; auto. now constructor.
  - destruct (rmatch a st k) eqn:Ha.
    + injection H as ->. apply IHa in Ha.
      destruct Ha as (w & aft & g & ? & ? & ?).
      exists w, aft, g. repeat split; auto. now apply M_AltL.
    + apply IHb in H. destruct H as (w & aft & g & ? & ? & ?).
      exists w, aft, g. repeat split; auto. now apply M_AltR.
  - revert H. generalize (length (rest st)) as n. intros n. revert st.
    induction n as [|n IHn]; intros st H.
    + exists [], (rest st), (group1 st). rewrite moved_nil.
      repeat split; auto. constructor.
    + match type of H with
      | match ?m with _ => _ end = _ => destruct m eqn:Ha
      end.
      * injection H as ->. apply IHa in Ha.
        destruct Ha as (w1 & a1 & g1 & E1 & M1 & H).
        destruct (_ <? _); [|discriminate].
        apply IHn in H. destruct H as (w2 & a2 & g2 & E2 & M2 & H).
        simpl in E2, M2. subst a1. rewrite moved_moved in H.
        exists (w1 ++ w2), a2, g2. rewrite <- app_assoc.
        repeat split; auto. now constructor.
      * exists [], (rest st), (group1 st). rewrite moved_nil.
        repeat split; auto. constructor.
  - revert H. generalize (length (rest st)) as n. intros n. revert st.
    induction n as [|n IHn]; intros st H.
    + exists [], (rest st), (group1 st). rewrite moved_nil.
      repeat split; auto. constructor.
    + destruct (k st) eqn:Hk.
      * injection H as ->.
        exists [], (rest st), (group1 st). rewrite moved_nil.
        repeat split; auto. constructor.
      * apply IHa in H.
        destruct H as (w1 & a1 & g1 & E1 & M1 & H).
        destruct (_ <? _); [|discriminate].
        apply IHn in H. destruct H as (w2 & a2 & g2 & E2 & M2 & H).
        simpl in E2, M2. subst a1. rewrite moved_moved in H.
        exists (w1 ++ w2), a2, g2. rewrite <- app_assoc.
        repeat split; auto. now constructor.
  - apply IHa in H. destruct H as (w & aft & g & E & M & H).
    eexists w, aft, _. repeat split; auto.
    + now constructor.
    + exact H.
  - destruct (rmatch a st (fun _ => Some tt)) eqn:Ha; [|discriminate].
    apply IHa in Ha. destruct Ha as (w & aft & g & E & M & _).
    exists [], (rest st), (group1 st). rewrite moved_nil.
    repeat split; auto. rewrite E. now constructor.
  - destruct (before st) as [|c t] eqn:E; [discriminate|].
    destruct (p c) eqn:P; [|discriminate].
    exists [], (rest st), (group1 st). rewrite moved_nil.
    repeat split; auto. now constructor.
Qed.

Lemma match_at_sound r bef s st :
  match_at r bef s = Some st ->
  exists w, s = w ++ rest st /\ before st = rev w ++ bef /\
            Matches r bef w (rest st).
Proof.
  unfold match_at. intros H. apply rmatch_sound in H.
  destruct H as (w & aft & g & E & M & H). simpl in *.
  injection H as <-. simpl. eauto.
Qed.

Lemma Matches_seq_inv a b bef w aft :
  Matches (Seq a b) bef w aft ->
  exists w1 w2, w = w1 ++ w2 /\ Matches a bef w1 (w2 ++ aft) /\
                Matches b (rev w1 ++ bef) w2 aft.
Proof. inversion 1; subst; eauto. Qed.

Lemma Matches_cls_inv p bef w aft :
  Matches (Cls p) bef w aft -> exists x, w = [x] /\ p x = true.
Proof. inversion 1; subst; eauto. Qed.

Lemma Matches_lit_inv c bef w aft : Matches (Lit c) bef w aft -> w = [c].
Proof. now inversion 1. Qed.

Lemma Matches_eps_inv bef w aft : Matches Eps bef w aft -> w = [].
Proof. now inversion 1. Qed.

Lemma Matches_alt_inv a b bef w aft :
  Matches (Alt a b) bef w aft -> Matches a bef w aft \/ Matches b bef w aft.
Proof. inversion 1; subst; auto. Qed.

Lemma Matches_group_inv a bef w aft :
  Matches (Group a) bef w aft -> Matches a bef w aft.
Proof. now inversion 1. Qed.

Lemma Matches_ahead_inv a bef w aft :
  Matches (Ahead a) bef w aft ->
  w = [] /\ exists w' aft', aft = w' ++ aft' /\ Matches a bef w' aft'.
Proof. inversion 1; subst; eauto. Qed.

Lemma Matches_behind_inv p bef w aft :
  Matches (Behind p) bef w aft ->
  w = [] /\ exists c bef', bef = c :: bef' /\ p c = true.
Proof. inversion 1; subst; eauto. Qed.

Lemma Matches_star_cls p bef w aft :
  Matches (Star (Cls p)) bef w aft -> Forall (fun c => p c = true) w.
Proof.
  intros H. remember (Star (Cls p)) as r eqn:E.
  induction H; try discriminate; injection E as ->.
  - constructor.
  - apply Matches_cls_inv in H. destruct H as (x & -> & Hx).
    constructor; auto.
Qed.

Lemma Matches_plus_cls p bef w aft :
  Matches (Plus (Cls p)) bef w aft ->
  w <> [] /\ Forall (fun c => p c = true) w.
Proof.
  intros H. apply Matches_seq_inv in H.
  destruct H as (w1 & w2 & -> & H1 & H2).
  apply Matches_cls_inv in H1. destruct H1 as (x & -> & Hx).
  apply Matches_star_cls in H2. split; [discriminate|].
  simpl. constructor; auto.
Qed.

Section Spaces.

Variable U : unicode_tables.

Lemma nonspace_chars_all_space w : all_space U w -> nonspace_chars U w = [].
Proof.
  induction 1 as [|c w Hc _ IH]; simpl; auto.
  unfold nonspace. now rewrite Hc.
Qed.

Lemma nonspace_chars_cons c s :
  nonspace_chars U (c :: s) =
  if nonspace U c then c :: nonspace_chars U s else nonspace_chars U s.
Proof. reflexivity. Qed.

Lemma nonspace_chars_app a b :
  nonspace_chars U (a ++ b) = nonspace_chars U a ++ nonspace_chars U b.
Proof. apply filter_app. Qed.

Lemma Matches_gap behind ahead bef w aft :
  Matches (re_gap U behind ahead) bef w aft -> w <> [] /\ all_space U w.
Proof.
  intros H. apply Matches_seq_inv in H.
  destruct H as (w1 & w2 & -> & H1 & H2).
  apply Matches_behind_inv in H1. destruct H1 as (-> & _).
  apply Matches_seq_inv in H2. destruct H2 as (w3 & w4 & -> & H3 & H4).
  apply Matches_ahead_inv in H4. destruct H4 as (-> & _).
  simpl. rewrite app_nil_r. now apply Matches_plus_cls in H3.
Qed.

(** A substitution whose matches and replacement are white space leaves the
    other characters as they are. *)
Lemma sub_go_nonspace r repl :
  (forall bef w aft, Matches r bef w aft -> all_space U w) ->
  all_space U repl ->
  forall s bef skip,
    all_space U (firstn skip s) ->
    nonspace_chars U (sub_go r (Const repl) bef s skip) = nonspace_chars U s.
Proof.
  intros Hr Hrepl. induction s as [|c tl IH]; intros bef skip Hs; [reflexivity|].
  assert (Hnone : nonspace_chars U (c :: sub_go r (Const repl) (c :: bef) tl 0)
                  = nonspace_chars U (c :: tl)).
  { rewrite !nonspace_chars_cons. now rewrite (IH _ 0) by constructor. }
  destruct skip as [|k]; cbn [sub_go].
  - destruct (match_at r bef (c :: tl)) as [st|] eqn:Hm; [|exact Hnone].
    apply match_at_sound in Hm. destruct Hm as (w & E & _ & M).
    apply Hr in M.
    replace (length (c :: tl) - length (rest st)) with (length w)
      by (rewrite E, length_app; lia).
    destruct w as [|x w]; [exact Hnone|].
    cbn [length expand]. simpl in E. injection E as -> E.
    inversion M as [|? ? Hx Hw]; subst.
    rewrite nonspace_chars_app, (nonspace_chars_all_space Hrepl).
    rewrite nonspace_chars_cons. unfold nonspace at 1. rewrite Hx. cbn [negb app].
    apply IH.
    now rewrite firstn_app, firstn_all, Nat.sub_diag, firstn_O, app_nil_r.
  - simpl in Hs. inversion Hs as [|? ? Hx Hw]; subst.
    rewrite nonspace_chars_cons. unfold nonspace at 1. rewrite Hx. cbn [negb app].
    now apply IH.
Qed.

Lemma re_sub_nonspace r repl s :
  (forall bef w aft, Matches r bef w aft -> all_space U w) ->
  all_space U repl ->
  nonspace_chars U (re_sub r (Const repl) s) = nonspace_chars U s.
Proof. intros. apply sub_go_nonspace; auto. constructor. Qed.

Lemma lstrip_nonspace s : nonspace_chars U (lstrip U s) = nonspace_chars U s.
Proof.
  induction s as [|c s IH]; [reflexivity|].
  cbn [lstrip]. destruct (isspace U c) eqn:E; [|reflexivity].
  rewrite nonspace_chars_cons. unfold nonspace. now rewrite E.
Qed.

Lemma nonspace_chars_rev s : nonspace_chars U (rev s) = rev (nonspace_chars U s).
Proof.
  induction s as [|c s IH]; [reflexivity|].
  cbn [rev]. rewrite nonspace_chars_app, IH, !nonspace_chars_cons.
  destruct (nonspace U c); [reflexivity|apply app_nil_r].
Qed.

Lemma strip_nonspace s : nonspace_chars U (strip U s) = nonspace_chars U s.
Proof.
  unfold strip, rstrip.
  now rewrite nonspace_chars_rev, lstrip_nonspace, nonspace_chars_rev,
    rev_involutive, lstrip_nonspace.
Qed.

(** C10: the characters of [normalize_chem_spacing(x)] that are not white
    space are those of [x], one for one and in the same order: the
    normalizer deletes white space or puts one space for a run of it, and
    does nothing else. *)
Theorem normalize_keeps_nonspace (x : str) :
  nonspace_chars U (normalize_chem_spacing U x) = nonspace_chars U x.
Proof.
  unfold normalize_chem_spacing.
  rewrite strip_nonspace.
  rewrite re_sub_nonspace.
  2:{ intros bef w aft M. now apply Matches_plus_cls in M. }
  2:{ repeat constructor. }
  repeat (rewrite re_sub_nonspace;
          [|intros bef w aft M; now apply Matches_gap in M|constructor]).
  reflexivity.
Qed.

End Spaces.

(** ** Greedy runs of a class *)

Lemma star_cls_cons (A : Type) p (k : mstate -> option A) c t bef g :
  p c = true ->
  rmatch (Star (Cls p)) {| before := bef; rest := c :: t; group1 := g |} k =
  match rmatch (Star (Cls p))
          {| before := c :: bef; rest := t; group1 := g |} k with
  | Some x => Some x
  | None => k {| before := bef; rest := c :: t; group1 := g |}
  end.
Proof.
  intros Hc. cbn [rmatch rest length]. rewrite Hc.
  unfold consume; cbn [rest before group1].
  replace (length t <? S (length t)) with true
    by (symmetry; apply Nat.ltb_lt; lia).
  reflexivity.
Qed.

Lemma star_cls_stop (A : Type) p (k : mstate -> option A) bef aft g :
  maximal p aft ->
  rmatch (Star (Cls p)) {| before := bef; rest := aft; group1 := g |} k =
  k {| before := bef; rest := aft; group1 := g |}.
Proof.
  intros Hmax. destruct aft as [|y aft]; [reflexivity|].
  cbn [rmatch rest length]. simpl in Hmax. now rewrite Hmax.
Qed.

(** A greedy class run reaches the end of the longest run first. *)
Lemma star_cls_hit (A : Type) p (k : mstate -> option A) x :
  forall w bef aft g,
    Forall (fun c => p c = true) w ->
    maximal p aft ->
    k {| before := rev w ++ bef; rest := aft; group1 := g |} = Some x ->
    rmatch (Star (Cls p)) {| before := bef; rest := w ++ aft; group1 := g |} k
    = Some x.
Proof.
  induction w as [|c w IH]; intros bef aft g Hw Hmax Hk.
  - cbn [app rev] in *. now rewrite star_cls_stop.
  - inversion Hw as [|? ? Hc Hw']; subst.
    cbn [app]. rewrite star_cls_cons by assumption.
    rewrite (IH (c :: bef) aft g Hw' Hmax); [reflexivity|].
    cbn [rev] in Hk. now rewrite <- app_assoc in Hk.
Qed.

Lemma plus_cls_hit (A : Type) p (k : mstate -> option A) x c w bef aft g :
  Forall (fun c => p c = true) (c :: w) ->
  maximal p aft ->
  k {| before := rev (c :: w) ++ bef; rest := aft; group1 := g |} = Some x ->
  rmatch (Plus (Cls p))
    {| before := bef; rest := (c :: w) ++ aft; group1 := g |} k = Some x.
Proof.
  intros Hw Hmax Hk. inversion Hw as [|? ? Hc Hw']; subst.
  unfold Plus. cbn [app]. change (rmatch (Seq ?a ?b) ?st ?k') with
    (rmatch a st (fun st' => rmatch b st' k')).
  cbn [rmatch rest]. rewrite Hc.
  apply star_cls_hit; auto.
  cbn [rev] in Hk. now rewrite <- app_assoc in Hk.
Qed.

(** ** The spacing rules, read on the tokens *)

Lemma sub_go_skip r t : forall m bef s,
  sub_go r t bef (m ++ s) (length m) = sub_go r t (rev m ++ bef) s 0.
Proof.
  induction m as [|c m IH]; intros bef s; [reflexivity|].
  cbn [app length sub_go rev]. rewrite IH. now rewrite <- app_assoc.
Qed.

Section Gaps.

Variable U : unicode_tables.

Lemma tokens_exist (s : str) : exists l tail, wf_tokens U l tail /\ s = untok l tail.
Proof.
  induction s as [|c s (l & tail & (Hl & Ht) & ->)].
  - exists [], []. repeat constructor.
  - destruct (isspace U c) eqn:Hc.
    + destruct l as [|[w c1] l].
      * exists [], (c :: tail). split; [|reflexivity].
        split; [constructor|now constructor].
      * exists ((c :: w, c1) :: l), tail. split; [|reflexivity].
        inversion Hl as [|? ? [Hw Hc1] Hl']; subst.
        split; [|assumption]. constructor; [|assumption].
        split; [now constructor|assumption].
    + exists (([], c) :: l), tail. split; [|reflexivity].
      split; [|assumption]. constructor; [|assumption].
      split; [constructor|assumption].
Qed.

Lemma space_run_unique w1 : forall w2 y1 y2 r1 r2,
  all_space U w1 -> all_space U w2 ->
  isspace U y1 = false -> isspace U y2 = false ->
  w1 ++ y1 :: r1 = w2 ++ y2 :: r2 -> w1 = w2 /\ y1 = y2 /\ r1 = r2.
Proof.
  induction w1 as [|x w1 IH]; intros w2 y1 y2 r1 r2 H1 H2 Hy1 Hy2 E.
  - destruct w2 as [|x2 w2]; simpl in E.
    + now injection E as -> ->.
    + injection E as -> _. inversion H2; subst. congruence.
  - destruct w2 as [|x2 w2]; simpl in E.
    + injection E as -> _. inversion H1; subst. congruence.
    + injection E as -> E.
      inversion H1 as [|? ? _ Hw1]; inversion H2 as [|? ? _ Hw2]; subst.
      destruct (IH _ _ _ _ _ Hw1 Hw2 Hy1 Hy2 E) as (-> & -> & ->). auto.
Qed.

Section OneRule.

Variables behind ahead : char -> bool.
Hypothesis behind_nonspace : forall c, behind c = true -> isspace U c = false.
Hypothesis ahead_nonspace : forall c, ahead c = true -> isspace U c = false.

Lemma gap_match_sound bef s st :
  match_at (re_gap U behind ahead) bef s = Some st ->
  exists p bef' w y r,
    bef = p :: bef' /\ behind p = true /\ w <> [] /\ all_space U w /\
    s = w ++ y :: r /\ ahead y = true /\ rest st = y :: r.
Proof.
  intros H. apply match_at_sound in H. destruct H as (w & E & _ & M).
  apply Matches_seq_inv in M. destruct M as (w1 & w2 & -> & M1 & M2).
  apply Matches_behind_inv in M1. destruct M1 as (-> & p & bef' & -> & Hp).
  apply Matches_seq_inv in M2. destruct M2 as (w3 & w4 & -> & M3 & M4).
  apply Matches_ahead_inv in M4.
  destruct M4 as (-> & w' & aft' & Ea & M4).
  apply Matches_cls_inv in M4. destruct M4 as (y & -> & Hy).
  apply Matches_plus_cls in M3. destruct M3 as (Hne & Hw).
  simpl in *. rewrite app_nil_r in *.
  exists p, bef', w3, y, aft'. rewrite E, Ea. repeat split; auto.
Qed.

Lemma gap_match_hit p bef x w y r :
  behind p = true -> all_space U (x :: w) -> ahead y = true ->
  match_at (re_gap U behind ahead) (p :: bef) ((x :: w) ++ y :: r) =
  Some {| before := rev (x :: w) ++ p :: bef; rest := y :: r; group1 := None |}.
Proof.
  intros Hp Hw Hy. unfold match_at, re_gap.
  change (rmatch (Seq ?a ?b) ?st ?k') with
    (rmatch a st (fun st' => rmatch b st' k')).
  cbn [rmatch before]. rewrite Hp.
  change (rmatch (Seq ?a ?b) ?st ?k') with
    (rmatch a st (fun st' => rmatch b st' k')).
  apply plus_cls_hit; auto.
  - simpl. now apply ahead_nonspace.
  - cbn [rmatch rest]. now rewrite Hy.
Qed.

Lemma gap_match_nonspace bef c s :
  isspace U c = false -> match_at (re_gap U behind ahead) bef (c :: s) = None.
Proof.
  intros Hc. destruct (match_at _ bef (c :: s)) eqn:H; [|reflexivity].
  apply gap_match_sound in H.
  destruct H as (p & bef' & w & y & r & _ & _ & Hne & Hw & E & _).
  destruct w as [|x w]; [congruence|]. injection E as <- _.
  inversion Hw; subst. congruence.
Qed.

Lemma gap_match_behind_space x bef s :
  isspace U x = true -> match_at (re_gap U behind ahead) (x :: bef) s = None.
Proof.
  intros Hx. destruct (match_at _ (x :: bef) s) eqn:H; [|reflexivity].
  apply gap_match_sound in H.
  destruct H as (p & bef' & w & y & r & E & Hp & _).
  injection E as <- _. apply behind_nonspace in Hp. congruence.
Qed.

Lemma gap_match_all_space bef s :
  all_space U s -> match_at (re_gap U behind ahead) bef s = None.
Proof.
  intros Hs. destruct (match_at _ bef s) eqn:H; [|reflexivity].
  apply gap_match_sound in H.
  destruct H as (p & bef' & w & y & r & _ & _ & _ & _ & -> & Hy & _).
  apply ahead_nonspace in Hy. apply Forall_app in Hs. destruct Hs as [_ Hs].
  inversion Hs; subst. congruence.
Qed.

Lemma gap_match_miss bef x w c r :
  all_space U (x :: w) -> isspace U c = false ->
  match hd_error bef with Some p => pair_rule behind ahead p c | None => false end = false ->
  match_at (re_gap U behind ahead) bef ((x :: w) ++ c :: r) = None.
Proof.
  intros Hw Hc Hf. destruct (match_at _ bef _) eqn:H; [|reflexivity].
  apply gap_match_sound in H.
  destruct H as (p & bef' & w2 & y & r2 & -> & Hp & _ & Hw2 & E & Hy & _).
  apply space_run_unique in E; auto.
  destruct E as (_ & -> & _). simpl in Hf. unfold pair_rule in Hf.
  rewrite Hp, Hy in Hf. discriminate.
Qed.

Lemma gap_scan_all_space t : forall s bef,
  all_space U s -> sub_go (re_gap U behind ahead) t bef s 0 = s.
Proof.
  induction s as [|c s IH]; intros bef Hs; [reflexivity|].
  cbn [sub_go]. rewrite gap_match_all_space by assumption.
  inversion Hs; subst. now rewrite IH.
Qed.

Lemma gap_scan_inside t c r : forall w x bef,
  all_space U w -> isspace U x = true ->
  sub_go (re_gap U behind ahead) t (x :: bef) (w ++ c :: r) 0 =
  w ++ sub_go (re_gap U behind ahead) t (rev w ++ x :: bef) (c :: r) 0.
Proof.
  induction w as [|y w IH]; intros x bef Hw Hx; [reflexivity|].
  cbn [app]. cbn [sub_go]. rewrite gap_match_behind_space by assumption.
  inversion Hw; subst. rewrite IH by assumption.
  cbn [rev]. now rewrite <- app_assoc.
Qed.

(** The gap substitution, read on the tokens. *)
Lemma gap_sub_tokens : forall l bef tail,
  wf_tokens U l tail ->
  sub_go (re_gap U behind ahead) (Const []) bef (untok l tail) 0 =
  untok (gap_rule (pair_rule behind ahead) (hd_error bef) l) tail.
Proof.
  induction l as [|[w c] l IH]; intros bef tail [Hl Ht].
  - simpl. now apply gap_scan_all_space.
  - inversion Hl as [|? ? [Hw Hc] Hl']; subst. simpl in Hw, Hc.
    assert (Hat : forall bef',
      sub_go (re_gap U behind ahead) (Const []) bef' (c :: untok l tail) 0 =
      c :: untok (gap_rule (pair_rule behind ahead) (Some c) l) tail).
    { intros bef'. cbn [sub_go]. rewrite gap_match_nonspace by assumption.
      now rewrite IH by (split; assumption). }
    cbn [untok gap_rule].
    destruct w as [|x w].
    + cbn [app]. rewrite Hat.
      now destruct (match hd_error bef with
                    | Some p => pair_rule behind ahead p c
                    | None => false
                    end).
    + destruct (match hd_error bef with Some p => pair_rule behind ahead p c | None => false end)
        eqn:Hf.
      * destruct bef as [|p bef]; [discriminate|]. simpl in Hf.
        unfold pair_rule in Hf. apply andb_prop in Hf. destruct Hf as [Hp Hy].
        change ((x :: w) ++ c :: untok l tail)
          with (x :: (w ++ c :: untok l tail)).
        cbn [sub_go].
        change (x :: (w ++ c :: untok l tail))
          with ((x :: w) ++ c :: untok l tail).
        rewrite gap_match_hit by assumption.
        cbn [rest expand]. rewrite length_app. cbn [length].
        replace (S (length w) + S (length (untok l tail))
                 - S (length (untok l tail))) with (S (length w)) by lia.
        cbn [app]. rewrite sub_go_skip. apply Hat.
      * change ((x :: w) ++ c :: untok l tail)
          with (x :: (w ++ c :: untok l tail)).
        cbn [sub_go].
        change (x :: (w ++ c :: untok l tail))
          with ((x :: w) ++ c :: untok l tail).
        rewrite gap_match_miss by assumption.
        inversion Hw; subst.
        rewrite gap_scan_inside by assumption. rewrite Hat. reflexivity.
Qed.

End OneRule.

End Gaps.

Lemma gap_rule_fuse R1 R2 : forall l prev,
  gap_rule R2 prev (gap_rule R1 prev l) = gap_rule (either R1 R2) prev l.
Proof.
  induction l as [|[w c] l IH]; intros prev; [reflexivity|].
  cbn [gap_rule]. rewrite IH. f_equal. f_equal.
  destruct prev as [p|]; [|reflexivity]. unfold either.
  now destruct (R1 p c), (R2 p c).
Qed.

Lemma collapse_ws_idem w : collapse_ws (collapse_ws w) = collapse_ws w.
Proof. now destruct w. Qed.

Lemma gap_rule_settled R : forall l prev,
  gap_rule R prev (collapse_gaps (gap_rule R prev l)) =
  collapse_gaps (gap_rule R prev l).
Proof.
  induction l as [|[w c] l IH]; intros prev; [reflexivity|].
  cbn [gap_rule collapse_gaps map fst snd].
  fold (collapse_gaps (gap_rule R (Some c) l)). rewrite IH. f_equal.
  now destruct (match prev with Some p => R p c | None => false end).
Qed.

Lemma collapse_gaps_idem l : collapse_gaps (collapse_gaps l) = collapse_gaps l.
Proof.
  unfold collapse_gaps. rewrite map_map. apply map_ext.
  intros [w c]. simpl. now rewrite collapse_ws_idem.
Qed.

Lemma norm_tokens_idem R l : norm_tokens R (norm_tokens R l) = norm_tokens R l.
Proof.
  unfold norm_tokens. destruct l as [|[w c] l]; [reflexivity|].
  cbn [gap_rule collapse_gaps map drop_first_gap fst snd collapse_ws].
  fold (collapse_gaps (gap_rule R (Some c) l)).
  rewrite gap_rule_settled.
  fold (collapse_gaps (collapse_gaps (gap_rule R (Some c) l))).
  now rewrite collapse_gaps_idem.
Qed.

Section Normalizer.

Variable U : unicode_tables.

Lemma wf_gap_rule R l tail : forall prev,
  wf_tokens U l tail -> wf_tokens U (gap_rule R prev l) tail.
Proof.
  intros prev [Hl Ht]. split; [|assumption]. revert prev.
  induction Hl as [|[w c] l [Hw Hc] _ IH]; intros prev; constructor; auto.
  simpl. split; [|assumption].
  destruct (match prev with Some p => R p c | None => false end);
    [constructor|assumption].
Qed.

Lemma all_space_collapse w : all_space U (collapse_ws w).
Proof. destruct w; repeat constructor. Qed.

Lemma plus_space_nonspace bef c s :
  isspace U c = false -> match_at (Plus (Cls (isspace U))) bef (c :: s) = None.
Proof.
  intros Hc. unfold match_at, Plus.
  change (rmatch (Seq ?a ?b) ?st ?k') with
    (rmatch a st (fun st' => rmatch b st' k')).
  cbn [rmatch rest]. now rewrite Hc.
Qed.

Lemma plus_space_hit bef x w aft :
  all_space U (x :: w) -> maximal (isspace U) aft ->
  match_at (Plus (Cls (isspace U))) bef ((x :: w) ++ aft) =
  Some {| before := rev (x :: w) ++ bef; rest := aft; group1 := None |}.
Proof. intros Hw Hmax. unfold match_at. now apply plus_cls_hit. Qed.

Lemma collapse_run t bef x w aft :
  all_space U (x :: w) -> maximal (isspace U) aft ->
  sub_go (Plus (Cls (isspace U))) (Const t) bef ((x :: w) ++ aft) 0 =
  t ++ sub_go (Plus (Cls (isspace U))) (Const t) (rev (x :: w) ++ bef) aft 0.
Proof.
  intros Hw Hmax.
  change ((x :: w) ++ aft) with (x :: (w ++ aft)). cbn [sub_go].
  change (x :: (w ++ aft)) with ((x :: w) ++ aft).
  rewrite plus_space_hit by assumption. cbn [rest expand].
  rewrite length_app. cbn [length].
  replace (S (length w) + length aft - length aft) with (S (length w)) by lia.
  rewrite sub_go_skip. cbn [rev]. now rewrite <- app_assoc.
Qed.

(** The last substitution, read on the tokens. *)
Lemma collapse_sub_tokens : forall l bef tail,
  wf_tokens U l tail ->
  sub_go (Plus (Cls (isspace U))) (Const (str_of " ")) bef (untok l tail) 0 =
  untok (collapse_gaps l) (collapse_ws tail).
Proof.
  induction l as [|[w c] l IH]; intros bef tail [Hl Ht].
  - cbn [untok collapse_gaps map]. destruct tail as [|x tail]; [reflexivity|].
    rewrite <- (app_nil_r (x :: tail)).
    rewrite collapse_run by (simpl; auto). reflexivity.
  - inversion Hl as [|? ? [Hw Hc] Hl']; subst. simpl in Hw, Hc.
    assert (Hat : forall bef',
      sub_go (Plus (Cls (isspace U))) (Const (str_of " ")) bef'
        (c :: untok l tail) 0 =
      c :: untok (collapse_gaps l) (collapse_ws tail)).
    { intros bef'. cbn [sub_go]. rewrite plus_space_nonspace by assumption.
      now rewrite IH by (split; assumption). }
    cbn [untok collapse_gaps map fst snd]. fold (collapse_gaps l).
    destruct w as [|x w].
    + apply Hat.
    + rewrite collapse_run by (simpl; auto). now rewrite Hat.
Qed.

Lemma untok_app l : forall tail, untok l tail = untok l [] ++ tail.
Proof.
  induction l as [|[w c] l IH]; intros tail; [reflexivity|].
  cbn [untok]. rewrite IH. now rewrite <- app_assoc.
Qed.

Lemma lstrip_all_space w s : all_space U w -> lstrip U (w ++ s) = lstrip U s.
Proof. induction 1 as [|c w Hc _ IH]; [reflexivity|]. simpl. now rewrite Hc. Qed.

Lemma lstrip_nonspace_head c s :
  isspace U c = false -> lstrip U (c :: s) = c :: s.
Proof. intros Hc. simpl. now rewrite Hc. Qed.

Lemma all_space_rev w : all_space U w -> all_space U (rev w).
Proof. apply Forall_rev. Qed.

Lemma rstrip_all_space s w : all_space U w -> rstrip U (s ++ w) = rstrip U s.
Proof.
  intros Hw. unfold rstrip. rewrite rev_app_distr.
  now rewrite lstrip_all_space by now apply all_space_rev.
Qed.

Lemma rstrip_nonspace_last s c :
  isspace U c = false -> rstrip U (s ++ [c]) = s ++ [c].
Proof.
  intros Hc. unfold rstrip. rewrite rev_app_distr. cbn [rev app].
  rewrite lstrip_nonspace_head by assumption.
  cbn [rev]. now rewrite rev_involutive.
Qed.

Lemma untok_last l :
  Forall (fun t => isspace U (snd t) = false) l -> l <> [] ->
  exists s c, untok l [] = s ++ [c] /\ isspace U c = false.
Proof.
  induction 1 as [|[w c] l Hc Hl IH]; intros Hne; [congruence|].
  destruct l as [|t l].
  - exists w, c. auto.
  - destruct IH as (s & d & E & Hd); [discriminate|].
    exists (w ++ c :: s), d. split; [|assumption].
    cbn [untok] in *. rewrite E. now rewrite <- app_assoc.
Qed.

Lemma strip_tokens l tail :
  wf_tokens U l tail -> strip U (untok l tail) = untok (drop_first_gap l) [].
Proof.
  intros [Hl Ht]. unfold strip. destruct l as [|[w c] l].
  - cbn [untok drop_first_gap]. rewrite <- (app_nil_r tail).
    rewrite lstrip_all_space by assumption. reflexivity.
  - inversion Hl as [|? ? [Hw Hc] Hl']; subst. simpl in Hw, Hc.
    cbn [untok drop_first_gap app].
    rewrite lstrip_all_space by assumption.
    rewrite lstrip_nonspace_head by assumption.
    change (c :: untok l tail) with (untok (([], c) :: l) tail).
    rewrite untok_app. rewrite rstrip_all_space by assumption.
    destruct (@untok_last (([], c) :: l)) as (s & d & E & Hd).
    + constructor; [assumption|].
      eapply Forall_impl; [|exact Hl']. now intros t [_ H].
    + discriminate.
    + change (c :: untok l []) with (untok (([], c) :: l) []).
      rewrite E. now apply rstrip_nonspace_last.
Qed.

Hypothesis decimal_not_space :
  forall c, uni_isdecimal U c = true -> uni_isspace U c = false.

Lemma ascii_nonspace (p : char -> bool) :
  (forall c, p c = true -> is_ascii c = true /\ ascii_space c = false) ->
  forall c, p c = true -> isspace U c = false.
Proof. intros H c Hc. apply H in Hc. unfold isspace. now destruct Hc as [-> ->]. Qed.

Lemma in_range_ascii lo hi c :
  (hi < 128)%N -> in_range lo hi c = true -> is_ascii c = true.
Proof.
  unfold in_range, is_ascii. intros Hhi H. apply andb_prop in H.
  destruct H as [_ H]. apply N.leb_le in H. apply N.ltb_lt. lia.
Qed.

Lemma in_range_not_space lo hi c :
  (32 < lo)%N -> in_range lo hi c = true -> ascii_space c = false.
Proof.
  unfold in_range, ascii_space. intros Hlo H. apply andb_prop in H.
  destruct H as [H _]. apply N.leb_le in H.
  apply orb_false_iff. split; apply andb_false_iff; right; apply N.leb_gt; lia.
Qed.

Lemma letter_nonspace c : ascii_letter c = true -> isspace U c = false.
Proof.
  apply ascii_nonspace. clear c. intros c H. unfold ascii_letter in H.
  apply orb_prop in H.
  destruct H as [H|H]; split;
    solve [eapply in_range_ascii; [|exact H]; lia
          |eapply in_range_not_space; [|exact H]; lia].
Qed.

Lemma lower_nonspace c : ascii_lower c = true -> isspace U c = false.
Proof. intros H. apply letter_nonspace. unfold ascii_letter. now rewrite H, orb_true_r. Qed.

Lemma upper_nonspace c : ascii_upper c = true -> isspace U c = false.
Proof. intros H. apply letter_nonspace. unfold ascii_letter. now rewrite H. Qed.

Lemma one_of_nonspace (s : string) :
  forallb (fun x => is_ascii x && negb (ascii_space x)) (str_of s) = true ->
  forall c, one_of s c = true -> isspace U c = false.
Proof.
  intros Hs. apply ascii_nonspace. intros c Hc. unfold one_of in Hc.
  apply existsb_exists in Hc. destruct Hc as (x & Hin & Hx).
  apply N.eqb_eq in Hx. subst x.
  rewrite forallb_forall in Hs. apply Hs in Hin.
  apply andb_prop in Hin. destruct Hin as [-> Hn].
  now apply negb_true_iff in Hn.
Qed.

Lemma digit_nonspace c : re_digit U c = true -> isspace U c = false.
Proof.
  unfold re_digit, isspace. destruct (is_ascii c) eqn:Ha.
  - unfold ascii_digit. apply in_range_not_space. lia.
  - apply decimal_not_space.
Qed.

Lemma letter_or_open_nonspace c : letter_or_open c = true -> isspace U c = false.
Proof.
  unfold letter_or_open. intros H. apply orb_prop in H. destruct H as [H|H].
  - now apply letter_nonspace.
  - revert H. now apply one_of_nonspace.
Qed.

Lemma re_sub_gap behind ahead l tail :
  (forall c, behind c = true -> isspace U c = false) ->
  (forall c, ahead c = true -> isspace U c = false) ->
  wf_tokens U l tail ->
  re_sub (re_gap U behind ahead) (Const []) (untok l tail) =
  untok (gap_rule (pair_rule behind ahead) None l) tail.
Proof. intros Hb Ha Hwf. unfold re_sub. now rewrite gap_sub_tokens. Qed.

(** [normalize_chem_spacing], read on the tokens. *)
Lemma normalize_tokens l tail :
  wf_tokens U l tail ->
  normalize_chem_spacing U (untok l tail) = untok (norm_tokens (chem_rule U) l) [].
Proof.
  intros Hwf. unfold normalize_chem_spacing.
  rewrite re_sub_gap; auto using letter_nonspace, digit_nonspace.
  rewrite re_sub_gap;
    auto using letter_or_open_nonspace, digit_nonspace, wf_gap_rule.
  rewrite re_sub_gap;
    auto using lower_nonspace, upper_nonspace, wf_gap_rule.
  rewrite re_sub_gap;
    auto using digit_nonspace, wf_gap_rule.
  2:{ now apply one_of_nonspace. }
  rewrite !gap_rule_fuse. fold (chem_rule U).
  unfold re_sub. rewrite collapse_sub_tokens by now apply wf_gap_rule.
  rewrite strip_tokens; [reflexivity|].
  destruct (wf_gap_rule (chem_rule U) None Hwf) as [Hl _].
  split; [|apply all_space_collapse].
  unfold collapse_gaps. apply Forall_map.
  eapply Forall_impl; [|exact Hl].
  intros [w c] [_ Hc]. split; [apply all_space_collapse|assumption].
Qed.

Lemma wf_norm_tokens R l tail :
  wf_tokens U l tail -> wf_tokens U (norm_tokens R l) [].
Proof.
  intros Hwf. destruct (wf_gap_rule R None Hwf) as [Hl _].
  split; [|constructor]. unfold norm_tokens.
  destruct (gap_rule R None l) as [|[w c] l']; [constructor|].
  inversion Hl as [|? ? [Hw Hc] Hl']; subst.
  cbn [collapse_gaps map drop_first_gap fst snd]. constructor.
  - split; [constructor|assumption].
  - apply Forall_map. eapply Forall_impl; [|exact Hl'].
    intros [w' c'] [_ Hc']. split; [apply all_space_collapse|assumption].
Qed.

(** C8: [normalize(normalize(x)) == normalize(x)] for every string [x], on
    Unicode tables in which no decimal digit is white space. *)
Theorem normalize_idempotent (x : str) :
  normalize_chem_spacing U (normalize_chem_spacing U x) =
  normalize_chem_spacing U x.
Proof.
  destruct (tokens_exist U x) as (l & tail & Hwf & ->).
  rewrite normalize_tokens by assumption.
  rewrite normalize_tokens by (eapply wf_norm_tokens; eassumption).
  now rewrite norm_tokens_idem.
Qed.

End Normalizer.

(** ** The converter on plain text *)

Lemma Matches_requires p r bef w aft :
  Matches r bef w aft -> requires p r = true ->
  Exists (fun c => p c = true) w.
Proof.
  induction 1; cbn [requires]; intros Hr; try discriminate.
  - now constructor.
  - apply Exists_app. apply orb_prop in Hr. destruct Hr; auto.
  - apply andb_prop in Hr. destruct Hr; auto.
  - apply andb_prop in Hr. destruct Hr; auto.
  - auto.
Qed.

Lemma match_at_requires p r bef s :
  requires p r = true -> Forall (fun c => p c = false) s ->
  match_at r bef s = None.
Proof.
  intros Hr Hs. destruct (match_at r bef s) as [st|] eqn:H; [|reflexivity].
  apply match_at_sound in H. destruct H as (w & -> & _ & M).
  eapply Matches_requires in Hr; [|exact M].
  apply Forall_app in Hs. destruct Hs as [Hs _].
  apply Exists_exists in Hr. destruct Hr as (c & Hin & Hc).
  rewrite Forall_forall in Hs. apply Hs in Hin. congruence.
Qed.

Lemma re_sub_no_match p r t s :
  requires p r = true -> Forall (fun c => p c = false) s -> re_sub r t s = s.
Proof.
  intros Hr. unfold re_sub. generalize (@nil char) as bef.
  induction s as [|c s IH]; intros bef Hs; [reflexivity|].
  cbn [sub_go]. erewrite match_at_requires by eassumption.
  inversion Hs; subst. now rewrite IH.
Qed.

Lemma remove_char_absent c s :
  Forall (fun x => (x =? c)%N = false) s -> remove_char c s = s.
Proof.
  induction 1 as [|x s Hx _ IH]; [reflexivity|].
  unfold remove_char in *. cbn [filter]. rewrite Hx. cbn [negb]. now rewrite IH.
Qed.

Lemma Matches_star_lit c bef w aft :
  Matches (Star (Lit c)) bef w aft -> Forall (fun x => x = c) w.
Proof.
  intros H. remember (Star (Lit c)) as r eqn:E.
  induction H; try discriminate; injection E as ->.
  - constructor.
  - apply Matches_lit_inv in H. subst. constructor; auto.
Qed.

Section Convert.

Variable U : unicode_tables.

Lemma isspace_space : isspace U (ch " ") = true.
Proof. reflexivity. Qed.

Lemma isspace_NL : isspace U NL = true.
Proof. reflexivity. Qed.

Lemma isspace_TAB : isspace U TAB = true.
Proof. reflexivity. Qed.

Lemma Matches_blanks bef w aft : Matches re_blanks bef w aft -> all_space U w.
Proof.
  intros H. apply Matches_plus_cls in H. destruct H as [_ H].
  eapply Forall_impl; [|exact H]. intros c Hc. apply orb_prop in Hc.
  destruct Hc as [Hc|Hc]; apply N.eqb_eq in Hc; subst; now vm_compute.
Qed.

Lemma Matches_newline bef w aft : Matches re_newline bef w aft -> all_space U w.
Proof.
  intros H. unfold re_newline in H.
  apply Matches_seq_inv in H. destruct H as (w1 & w2 & -> & H1 & H2).
  apply Matches_seq_inv in H2. destruct H2 as (w3 & w4 & -> & H3 & H4).
  apply Matches_star_lit in H1, H4. apply Matches_lit_inv in H3. subst.
  apply Forall_app; split; [|apply Forall_app; split].
  - eapply Forall_impl; [|exact H1]. now intros c ->.
  - repeat constructor.
  - eapply Forall_impl; [|exact H4]. now intros c ->.
Qed.

Lemma plain_absent (a : ascii) s :
  special (ch a) = true -> plain s -> Forall (fun x => (x =? ch a)%N = false) s.
Proof.
  intros Ha Hs. eapply Forall_impl; [|exact Hs]. intros c Hc.
  destruct (N.eqb_spec c (ch a)); [subst; congruence|reflexivity].
Qed.

(** On a string without special characters the converter only touches
    white space. *)
Lemma convert_plain_nonspace s :
  plain s ->
  nonspace_chars U (convert_latex_to_simple U s) = nonspace_chars U s.
Proof.
  intros Hs. unfold convert_latex_to_simple.
  rewrite strip_nonspace.
  rewrite re_sub_nonspace;
    [|intros bef w aft M; eapply Matches_newline; exact M|repeat constructor].
  rewrite re_sub_nonspace;
    [|intros bef w aft M; eapply Matches_blanks; exact M|repeat constructor].
  pose proof (fun r t Hr => @re_sub_no_match special r t s Hr Hs) as E.
  repeat (rewrite E by reflexivity).
  rewrite (@remove_char_absent (ch "{"))
    by (apply plain_absent; [reflexivity|assumption]).
  rewrite (@remove_char_absent (ch "}"))
    by (apply plain_absent; [reflexivity|assumption]).
  reflexivity.
Qed.


End Convert.

(** ** The segmenter *)

Lemma contents_app a b : contents (a ++ b) = contents a ++ contents b.
Proof. unfold contents. now rewrite map_app, concat_app. Qed.

Lemma match_at_group a bef s st :
  match_at (Group a) bef s = Some st ->
  group1 st = Some (firstn (length s - length (rest st)) s).
Proof.
  unfold match_at. cbn [rmatch]. intros H. apply rmatch_sound in H.
  destruct H as (w & aft & g & E & _ & H). injection H as <-.
  reflexivity.
Qed.

(** The pieces of [re.split] put together are the subject. *)
Lemma split_re_go_concat a : forall s bef cur skip,
  concat (split_re_go (Group a) bef s cur skip) = rev cur ++ skipn skip s.
Proof.
  induction s as [|c tl IH]; intros bef cur skip.
  - cbn [split_re_go concat]. rewrite skipn_nil. reflexivity.
  - assert (Hnone : concat (split_re_go (Group a) (c :: bef) tl (c :: cur) 0)
                    = rev cur ++ c :: tl).
    { rewrite IH. cbn [rev skipn]. now rewrite <- app_assoc. }
    cbn [split_re_go]. destruct skip as [|k]; [|now rewrite IH].
    cbn [skipn].
    destruct (match_at (Group a) bef (c :: tl)) as [st|] eqn:Hm; [|exact Hnone].
    destruct (length (c :: tl) - length (rest st)) as [|k] eqn:Hk;
      [exact Hnone|].
    apply match_at_group in Hm. cbn [concat expand]. rewrite Hm, Hk, IH.
    cbn [firstn rev app]. now rewrite firstn_skipn.
Qed.

Lemma re_split_concat a s : concat (re_split (Group a) s) = s.
Proof. unfold re_split. now rewrite split_re_go_concat. Qed.

Lemma split_go_concat_filter (keep : char -> bool) sep :
  keep sep = false ->
  forall s cur,
    filter keep (concat (split_go sep s cur)) = filter keep (rev cur ++ s).
Proof.
  intros Hsep. induction s as [|c s IH]; intros cur.
  - cbn [split_go concat]. now rewrite !app_nil_r.
  - cbn [split_go]. destruct (N.eqb_spec c sep) as [->|Hne].
    + cbn [concat]. rewrite !filter_app, IH. cbn [rev app filter].
      now rewrite Hsep.
    + rewrite IH. cbn [rev]. now rewrite <- app_assoc.
Qed.

Lemma startswith_app p : forall s, startswith s p = true -> exists t, s = p ++ t.
Proof.
  induction p as [|x p IH]; intros s H; [now exists s|].
  destruct s as [|y s]; [discriminate|]. cbn [startswith] in H.
  apply andb_prop in H. destruct H as [Hx H]. apply N.eqb_eq in Hx. subst y.
  destruct (IH _ H) as (t & ->). now exists t.
Qed.

Lemma endswith_app p s : endswith s p = true -> exists t, s = t ++ p.
Proof.
  unfold endswith. intros H. apply startswith_app in H. destruct H as (t & E).
  exists (rev t). apply (f_equal (@rev char)) in E.
  now rewrite rev_involutive, rev_app_distr, rev_involutive in E.
Qed.

(** [s[i:-j]] between a head of [i] and a tail of [j] characters. *)
Lemma slice_middle (pre mid post : str) :
  post <> [] ->
  slice (pre ++ mid ++ post) (Z.of_nat (length pre))
    (- Z.of_nat (length post)) = mid.
Proof.
  intros Hne. unfold slice, slice_bound. rewrite !length_app.
  assert (0 < length post) by (destruct post; simpl; [congruence|lia]).
  destruct (Z.ltb_spec (Z.of_nat (length pre)) 0); [lia|].
  destruct (Z.ltb_spec (- Z.of_nat (length post)) 0); [|lia].
  rewrite Nat2Z.id.
  replace (Nat.min (length pre + (length mid + length post)) (length pre))
    with (length pre) by lia.
  replace (Z.to_nat (Z.max 0 (Z.of_nat (length pre + (length mid + length post))
                              + - Z.of_nat (length post)))
           - length pre) with (length mid) by lia.
  rewrite skipn_app, skipn_all, Nat.sub_diag. cbn [app skipn].
  now rewrite firstn_app, firstn_all, Nat.sub_diag, firstn_O, app_nil_r.
Qed.

Section Segmenter.

Variable U : unicode_tables.

Lemma kept_chars_app a b : kept_chars U (a ++ b) = kept_chars U a ++ kept_chars U b.
Proof. apply filter_app. Qed.

Lemma kept_chars_concat l : kept_chars U (concat l) = concat (map (kept_chars U) l).
Proof.
  induction l as [|a l IH]; [reflexivity|].
  cbn [concat map]. now rewrite kept_chars_app, IH.
Qed.

Lemma kept_nonspace s : kept_chars U s = remove_char (ch "$") (nonspace_chars U s).
Proof.
  unfold kept_chars, remove_char, nonspace_chars.
  induction s as [|c s IH]; [reflexivity|]. cbn [filter]. unfold kept at 1.
  destruct (nonspace U c); cbn [andb filter]; rewrite IH; reflexivity.
Qed.

Lemma kept_remove s : kept_chars U s = nonspace_chars U (remove_char (ch "$") s).
Proof.
  unfold kept_chars, remove_char, nonspace_chars.
  induction s as [|c s IH]; [reflexivity|]. cbn [filter]. unfold kept at 1.
  destruct (negb (c =? ch "$")%N); cbn [filter]; rewrite IH.
  - now rewrite andb_true_r.
  - now rewrite andb_false_r.
Qed.

Lemma kept_chars_dollars s :
  Forall (fun c => c = ch "$") s -> kept_chars U s = [].
Proof.
  induction 1 as [|c s -> _ IH]; [reflexivity|].
  unfold kept_chars in *. cbn [filter]. unfold kept at 1.
  rewrite N.eqb_refl. cbn [negb]. now rewrite andb_false_r.
Qed.

Lemma kept_chars_strip s : kept_chars U (strip U s) = kept_chars U s.
Proof. now rewrite !kept_nonspace, strip_nonspace. Qed.

Lemma kept_chars_convert s :
  plain s -> kept_chars U (convert_latex_to_simple U s) = kept_chars U s.
Proof. intros H. now rewrite !kept_nonspace, convert_plain_nonspace. Qed.

Lemma kept_chars_blank s : strip U s = [] -> kept_chars U s = [].
Proof. intros H. now rewrite <- kept_chars_strip, H. Qed.

Lemma nonempty_false s : nonempty s = false -> s = [].
Proof. now destruct s. Qed.

Lemma plain_strip s : plain s -> plain (strip U s).
Proof.
  assert (Hl : forall t, plain t -> plain (lstrip U t)).
  { induction 1 as [|c t Hc Ht IH]; [constructor|].
    cbn [lstrip]. destruct (isspace U c); [assumption|now constructor]. }
  intros H. unfold strip, rstrip. apply Forall_rev, Hl, Forall_rev, Hl, H.
Qed.

Lemma plain_app_inv a b : plain (a ++ b) -> plain a /\ plain b.
Proof. apply Forall_app. Qed.

Lemma kept_kept_NL : kept U NL = false.
Proof. reflexivity. Qed.

(** The lines of a converted block formula. *)
Lemma kept_chars_block_lines converted :
  kept_chars U (contents
    (flat_map (fun line =>
                 if nonempty (strip U line)
                 then [(seg_block_formula, strip U line)] else [])
              (str_split converted NL)))
  = kept_chars U converted.
Proof.
  unfold str_split.
  transitivity (kept_chars U (concat (split_go NL converted [])));
    [|unfold kept_chars; now rewrite split_go_concat_filter].
  generalize (split_go NL converted []) as lines.
  induction lines as [|line lines IH]; [reflexivity|].
  cbn [flat_map concat]. rewrite contents_app, !kept_chars_app, IH. f_equal.
  destruct (nonempty (strip U line)) eqn:E.
  - unfold contents. cbn [map snd concat]. rewrite app_nil_r.
    apply kept_chars_strip.
  - apply nonempty_false in E. now rewrite (kept_chars_blank _ E).
Qed.

Lemma kept_chars_slice_block part :
  startswith part (str_of "$$") = true -> endswith part (str_of "$$") = true ->
  kept_chars U (slice part 2 (-2)) = kept_chars U part /\
  (plain part -> plain (slice part 2 (-2))).
Proof.
  intros Hs He. apply startswith_app in Hs. destruct Hs as (q & ->).
  apply endswith_app in He. destruct He as (t & E).
  destruct t as [|x [|y t]]; cbn [app str_of] in E.
  - injection E as Hq. subst q. split; [reflexivity|constructor].
  - injection E as Hx Hq. subst x q. split; [reflexivity|constructor].
  - injection E as Hx Hy Hq. subst x y q.
    assert (Hsl : slice (str_of "$$" ++ t ++ str_of "$$") 2 (-2) = t)
      by (apply (@slice_middle (str_of "$$") t (str_of "$$")); discriminate).
    rewrite Hsl. split.
    + rewrite !kept_chars_app.
      rewrite (@kept_chars_dollars (str_of "$$")) by repeat constructor.
      now rewrite app_nil_r.
    + intros H. apply plain_app_inv in H. destruct H as [_ H].
      now apply plain_app_inv in H.
Qed.

Lemma kept_chars_slice_inline part :
  startswith part (str_of "$") = true -> endswith part (str_of "$") = true ->
  kept_chars U (slice part 1 (-1)) = kept_chars U part /\
  (plain part -> plain (slice part 1 (-1))).
Proof.
  intros Hs He. apply startswith_app in Hs. destruct Hs as (q & ->).
  apply endswith_app in He. destruct He as (t & E).
  destruct t as [|x t]; cbn [app str_of] in E.
  - injection E as Hq. subst q. split; [reflexivity|constructor].
  - injection E as Hx Hq. subst x q.
    assert (Hsl : slice (str_of "$" ++ t ++ str_of "$") 1 (-1) = t)
      by (apply (@slice_middle (str_of "$") t (str_of "$")); discriminate).
    rewrite Hsl. split.
    + rewrite !kept_chars_app.
      rewrite (@kept_chars_dollars (str_of "$")) by repeat constructor.
      now rewrite app_nil_r.
    + intros H. apply plain_app_inv in H. destruct H as [_ H].
      now apply plain_app_inv in H.
Qed.

Lemma parse_inline_kept inline :
  plain inline ->
  kept_chars U (contents (parse_inline U inline)) = kept_chars U inline.
Proof.
  intros Hp. unfold parse_inline.
  destruct (nonempty inline) eqn:Hn; cbn [negb].
  2:{ apply nonempty_false in Hn. now subst. }
  destruct (startswith inline (str_of "$") && endswith inline (str_of "$"))
    eqn:Hd.
  - apply andb_prop in Hd. destruct Hd as [Hs He].
    destruct (kept_chars_slice_inline _ Hs He) as [Hk Hpl].
    unfold contents. cbn [map snd concat]. rewrite app_nil_r.
    rewrite kept_chars_convert by auto. exact Hk.
  - destruct (nonempty (strip U inline)) eqn:Hb.
    + unfold contents. cbn [map snd concat]. now rewrite app_nil_r.
    + apply nonempty_false in Hb. now rewrite (kept_chars_blank _ Hb).
Qed.

Lemma plain_concat l : plain (concat l) -> Forall plain l.
Proof.
  induction l as [|a l IH]; intros H; [constructor|].
  cbn [concat] in H. apply plain_app_inv in H. destruct H. constructor; auto.
Qed.

Lemma flat_map_kept (f : str -> list segment) l :
  Forall (fun p => kept_chars U (contents (f p)) = kept_chars U p) l ->
  kept_chars U (contents (flat_map f l)) = kept_chars U (concat l).
Proof.
  induction 1 as [|p l Hp _ IH]; [reflexivity|].
  cbn [flat_map concat]. now rewrite contents_app, !kept_chars_app, Hp, IH.
Qed.

Lemma parse_part_kept part :
  plain part ->
  kept_chars U (contents (parse_part U part)) = kept_chars U part.
Proof.
  intros Hp. unfold parse_part.
  destruct (nonempty part) eqn:Hn; cbn [negb].
  2:{ apply nonempty_false in Hn. now subst. }
  destruct (startswith part (str_of "$$") && endswith part (str_of "$$"))
    eqn:Hd.
  - apply andb_prop in Hd. destruct Hd as [Hs He].
    destruct (kept_chars_slice_block _ Hs He) as [Hk Hpl].
    rewrite kept_chars_block_lines.
    rewrite kept_chars_convert by auto using plain_strip.
    now rewrite kept_chars_strip.
  - rewrite flat_map_kept.
    + unfold re_inline. now rewrite re_split_concat.
    + pose proof (re_split_concat
        (Seq (Lit (ch "$")) (Seq (Plus (Cls (not_char "$"))) (Lit (ch "$"))))
        part) as E.
      fold re_inline in E. rewrite <- E in Hp. apply plain_concat in Hp.
      eapply Forall_impl; [|exact Hp]. intros p. apply parse_inline_kept.
Qed.


End Segmenter.

(** ** The run tokenizers *)

Lemma find_in_ge c s i k : find_in c s i = Some k -> i <= k.
Proof.
  revert i. induction s as [|x s IH]; simpl; intros i H; [discriminate|].
  destruct (x =? c)%N.
  - injection H as <-. lia.
  - apply IH in H. lia.
Qed.

Lemma str_find_ge s c start k : str_find s c start = Some k -> start <= k.
Proof. apply find_in_ge. Qed.

Lemma char_at_lt s i : i < length s -> exists c, char_at s i = Some c.
Proof.
  intros H. unfold char_at. destruct (nth_error s i) eqn:E; eauto.
  apply nth_error_None in E. lia.
Qed.

Lemma exclusive_marker t b : exclusive (t, b, negb b).
Proof. unfold exclusive; simpl; now destruct b. Qed.

Lemma flush_buf_exclusive buf runs :
  Forall exclusive runs -> Forall exclusive (snd (flush_buf buf runs)).
Proof.
  intros H. destruct buf; simpl; auto.
  apply Forall_app; split; auto. repeat constructor.
Qed.

Lemma Forall_snoc (A : Type) (P : A -> Prop) l x :
  Forall P l -> P x -> Forall P (l ++ [x]).
Proof. intros. apply Forall_app. split; auto. Qed.

Lemma latex_scan_total fuel content : forall i buf runs,
  length content - i < fuel ->
  Forall exclusive runs ->
  exists r, latex_scan fuel content i buf runs = Some r /\ Forall exclusive r.
Proof.
  induction fuel as [|fuel IH]; intros i buf runs Hf Hr; [lia|].
  cbn [latex_scan]. destruct (i <? length content) eqn:Hi.
  2:{ eexists; split; [reflexivity|]. now apply flush_buf_exclusive. }
  apply Nat.ltb_lt in Hi.
  destruct (char_at_lt content Hi) as [c ->].
  destruct (one_of "_^" c).
  2:{ apply IH; [lia|assumption]. }
  destruct ((i + 1 <? length content) && _) eqn:Hb.
  - destruct (str_find content _ (i + 1 + 1)) as [closing|] eqn:Hc.
    + apply str_find_ge in Hc.
      pose proof (flush_buf_exclusive buf Hr) as Hfl.
      destruct (flush_buf buf runs) as [buf' runs'].
      apply IH; [lia|]. apply Forall_snoc; [exact Hfl|].
      apply exclusive_marker.
    + apply IH; [lia|assumption].
  - destruct (i + 1 <? length content) eqn:Hi1.
    + apply Nat.ltb_lt in Hi1.
      destruct (char_at_lt content Hi1) as [c' ->].
      pose proof (flush_buf_exclusive buf Hr) as Hfl.
      destruct (flush_buf buf runs) as [buf' runs'].
      apply IH; [lia|]. apply Forall_snoc; [exact Hfl|].
      apply exclusive_marker.
    + apply IH; [lia|assumption].
Qed.

Lemma latex_like_to_runs_total content :
  exists r, latex_like_to_runs content = Some r /\ Forall exclusive r.
Proof. apply latex_scan_total; [lia|constructor]. Qed.

Section Tokenizer.

Variable U : unicode_tables.

Lemma digits_end_total fuel text : forall j,
  length text - j < fuel ->
  exists j', digits_end U fuel text j = Some j' /\ j <= j'.
Proof.
  induction fuel as [|fuel IH]; intros j Hf; [lia|].
  cbn [digits_end]. destruct ((j <? length text) && _) eqn:Hb.
  - apply andb_prop in Hb. destruct Hb as [Hj _]. apply Nat.ltb_lt in Hj.
    destruct (IH (j + 1)) as (j' & -> & Hle); [lia|]. exists j'. split; [auto|lia].
  - exists j. auto.
Qed.

Lemma digits_end_progress text i :
  subscript_digit_at U text i = true ->
  exists j, digits_end U (S (length text)) text i = Some j /\ i < j.
Proof.
  intros H. unfold subscript_digit_at in H.
  destruct (char_at text i) as [c|] eqn:Hc; [|discriminate].
  assert (Hi : i < length text).
  { apply nth_error_Some. unfold char_at in Hc. congruence. }
  apply andb_prop in H. destruct H as [H _].
  apply andb_prop in H. destruct H as [Hd _].
  cbn [digits_end]. rewrite Hc, Hd.
  replace (i <? length text) with true by (symmetry; now apply Nat.ltb_lt).
  cbn [andb].
  destruct (@digits_end_total (length text) text (i + 1)) as (j & -> & Hle);
    [lia|]. exists j. split; [auto|lia].
Qed.

Lemma plain_end_total fuel text : forall i,
  length text - i < fuel ->
  exists i', plain_end U fuel text i = Some i' /\ i <= i'.
Proof.
  induction fuel as [|fuel IH]; intros i Hf; [lia|].
  cbn [plain_end]. destruct ((i <? length text) && _) eqn:Hb.
  - apply andb_prop in Hb. destruct Hb as [Hi _]. apply Nat.ltb_lt in Hi.
    destruct (IH (i + 1)) as (i' & -> & Hle); [lia|]. exists i'. split; [auto|lia].
  - exists i. auto.
Qed.

Lemma split_scan_total fuel text : forall i runs,
  length text - i < fuel ->
  Forall exclusive runs ->
  exists r, split_scan U fuel text i runs = Some r /\ Forall exclusive r.
Proof.
  induction fuel as [|fuel IH]; intros i runs Hf Hr; [lia|].
  cbn [split_scan]. destruct (i <? length text) eqn:Hi.
  2:{ eauto. }
  apply Nat.ltb_lt in Hi.
  destruct (subscript_digit_at U text i) eqn:Hd.
  - destruct (digits_end_progress _ _ Hd) as (j & -> & Hj).
    apply IH; [lia|]. apply Forall_snoc; [assumption|reflexivity].
  - destruct (@plain_end_total (S (length text)) text (i + 1)) as (i' & -> & Hle);
      [lia|].
    apply IH; [lia|]. apply Forall_snoc; [assumption|reflexivity].
Qed.

Lemma _split_for_subscripts_total text :
  exists r, _split_for_subscripts U text = Some r /\ Forall exclusive r.
Proof. apply split_scan_total; [lia|constructor]. Qed.

Lemma make_runs_loop_pieces : forall base_runs final_runs,
  exists pieces,
    Forall2 (final_piece U) base_runs pieces /\
    make_runs_loop U base_runs final_runs = Some (final_runs ++ concat pieces).
Proof.
  induction base_runs as [|[[t is_sub] is_sup] more IH]; intros final_runs.
  - exists []. split; [constructor|]. cbn. now rewrite app_nil_r.
  - cbn [make_runs_loop]. destruct (is_sub || is_sup) eqn:Hs.
    + destruct (IH (final_runs ++ [(t, is_sub, is_sup)])) as (pieces & HF & ->).
      exists ([(t, is_sub, is_sup)] :: pieces). split.
      * constructor; [|assumption]. unfold final_piece, styled. cbn.
        now rewrite Hs.
      * cbn [concat]. now rewrite <- app_assoc.
    + destruct (_split_for_subscripts_total t) as (rs & Hrs & _).
      rewrite Hrs.
      destruct (IH (final_runs ++ rs)) as (pieces & HF & ->).
      exists (rs :: pieces). split.
      * constructor; [|assumption]. unfold final_piece, styled. cbn.
        now rewrite Hs.
      * cbn [concat]. now rewrite <- app_assoc.
Qed.

Lemma final_piece_exclusive r piece :
  exclusive r -> final_piece U r piece -> Forall exclusive piece.
Proof.
  unfold final_piece. intros Hr H. destruct (styled r).
  - subst. now constructor.
  - destruct (_split_for_subscripts_total (run_text r)) as (rs & Hrs & Hex).
    congruence.
Qed.

Lemma _make_runs_total content :
  exists r, _make_runs U content = Some r /\ Forall exclusive r.
Proof.
  unfold _make_runs.
  destruct (latex_like_to_runs_total (normalize_chem_spacing U content))
    as (base & -> & Hbase).
  destruct (make_runs_loop_pieces base []) as (pieces & HF & ->).
  eexists; split; [reflexivity|]. cbn [app].
  induction HF as [|r piece base pieces Hp HF IH]; [constructor|].
  inversion Hbase; subst. cbn [concat]. apply Forall_app. split; auto.
  eapply final_piece_exclusive; eassumption.
Qed.

Lemma _add_run_exclusive par t b :
  Forall exclusive_docx par -> Forall exclusive_docx (_add_run par t b (negb b)).
Proof.
  intros H. destruct t; cbn [_add_run]; auto.
  apply Forall_snoc; auto. unfold exclusive_docx; cbn. now destruct b.
Qed.

Lemma flush_exclusive normal par :
  Forall exclusive_docx par -> Forall exclusive_docx (snd (flush normal par)).
Proof.
  intros H. destruct normal; cbn [flush snd _add_run]; auto.
  apply Forall_snoc; auto. reflexivity.
Qed.

Lemma parsed_line_loop_exclusive fuel line : forall i normal par,
  Forall exclusive_docx par ->
  Forall exclusive_docx (fst (parsed_line_loop U fuel line i normal par)).
Proof.
  induction fuel as [|fuel IH]; intros i normal par Hp; [exact Hp|].
  cbn [parsed_line_loop]. destruct (i <? length line).
  2:{ now apply flush_exclusive. }
  destruct (char_at line i) as [c|]; [|exact Hp].
  destruct (is_char "^" c || is_char "_" c); [|now apply IH].
  match goal with
  | |- context [match ?f with Some _ => _ | None => _ end] => destruct f as [[[content j]|e|]|]
  end; auto.
  pose proof (flush_exclusive normal Hp) as Hfl.
  destruct (flush normal par) as [normal' par'].
  apply IH. now apply _add_run_exclusive.
Qed.

(** C2: for every input string each of the tokenizers returns, and in none
    of the runs it produces are subscript and superscript both set: the
    explicit scan [latex_like_to_runs], the inference
    [_split_for_subscripts], their combination [_make_runs], and the scan
    [_add_parsed_line] of the second implementation, also when that one
    raises. *)
Theorem runs_exclusive (s : str) :
  (exists rs, latex_like_to_runs s = Some rs /\ Forall exclusive rs) /\
  (exists rs, _split_for_subscripts U s = Some rs /\ Forall exclusive rs) /\
  (exists rs, _make_runs U s = Some rs /\ Forall exclusive rs) /\
  Forall exclusive_docx (fst (_add_parsed_line U [] s)).
Proof.
  split; [apply latex_like_to_runs_total|].
  split; [apply _split_for_subscripts_total|].
  split; [apply _make_runs_total|].
  apply parsed_line_loop_exclusive. constructor.
Qed.

(** C5: [_make_runs] turns "N^{2+}" into the runs ("N", false, false) and
    ("2+", false, true); and for every input its result is, run by run of the
    explicit scan, the run itself when the scan styled it and the output of
    the inference when it did not. *)
Theorem explicit_markup_precedence :
  _make_runs U (str_of "N^{2+}") =
    Some [(str_of "N", false, false); (str_of "2+", false, true)] /\
  forall content, exists base_runs pieces,
    latex_like_to_runs (normalize_chem_spacing U content) = Some base_runs /\
    Forall2 (final_piece U) base_runs pieces /\
    _make_runs U content = Some (concat pieces).
Proof.
  split; [reflexivity|]. intros content. unfold _make_runs.
  destruct (latex_like_to_runs_total (normalize_chem_spacing U content))
    as (base & -> & _).
  destruct (make_runs_loop_pieces base []) as (pieces & HF & ->).
  exists base, pieces. auto.
Qed.

(** C4: on "x^{a{b}c}" the scan of [latex_like_to_runs] ends the
    superscript at the first closing brace, "a{b", and leaves "c}" as plain
    text, where the scan of [_add_parsed_line], which counts the depth,
    takes "a{b}c". *)
Theorem first_brace_not_matching_brace :
  latex_like_to_runs (str_of "x^{a{b}c}") =
    Some [(str_of "x", false, false); (str_of "a{b", false, true);
          (str_of "c}", false, false)] /\
  _add_parsed_line U [] (str_of "x^{a{b}c}") =
    ([ {| r_text := str_of "x"; r_font_name := DOC_FONT_NAME;
          r_font_size := DOC_FONT_SIZE_PT;
          r_subscript := false; r_superscript := false |};
       {| r_text := str_of "a{b}c"; r_font_name := DOC_FONT_NAME;
          r_font_size := DOC_FONT_SIZE_PT;
          r_subscript := false; r_superscript := true |} ], Return tt).
Proof. split; reflexivity. Qed.

End Tokenizer.

(** ** The two searches for the closing brace *)

Lemma depth_after_app w1 : forall w2 d,
  depth_after (w1 ++ w2) d = depth_after w2 (depth_after w1 d).
Proof. induction w1 as [|c w1 IH]; intros w2 d; [reflexivity|]. cbn. apply IH. Qed.

(** [_find_matching_brace] returns the first closing brace that brings the
    depth to zero. *)
Lemma matching_brace_loop_found : forall tail i depth j,
  matching_brace_loop tail i depth = Some j ->
  exists pre post,
    tail = pre ++ ch "}" :: post /\ j = i + length pre /\
    depth_after (pre ++ [ch "}"]) depth = 0%Z /\
    forall pre' post', pre = pre' ++ ch "}" :: post' ->
                       depth_after (pre' ++ [ch "}"]) depth <> 0%Z.
Proof.
  induction tail as [|c tail IH]; intros i depth j H; [discriminate|].
  cbn [matching_brace_loop] in H.
  destruct (is_char "{" c) eqn:Ho.
  - apply IH in H. destruct H as (pre & post & -> & -> & Hd & Hfirst).
    exists (c :: pre), post. repeat split.
    + cbn [length]. lia.
    + cbn [app depth_after]. now rewrite Ho.
    + intros pre' post' E. destruct pre' as [|x pre'].
      * injection E as -> _. discriminate.
      * injection E as -> E. cbn [app depth_after]. rewrite Ho. eauto.
  - destruct (is_char "}" c) eqn:Hc.
    + destruct (Z.eqb_spec (depth - 1) 0) as [Hz|Hz].
      * injection H as <-. apply N.eqb_eq in Hc. subst c.
        exists [], tail. repeat split.
        -- cbn [length]. lia.
        -- exact Hz.
        -- intros [|x pre'] post' E; discriminate.
      * apply IH in H. destruct H as (pre & post & -> & -> & Hd & Hfirst).
        exists (c :: pre), post. repeat split.
        -- cbn [length]. lia.
        -- cbn [app depth_after]. now rewrite Ho, Hc.
        -- intros pre' post' E. destruct pre' as [|x pre'].
           ++ cbn [app depth_after]. exact Hz.
           ++ injection E as -> E. cbn [app depth_after]. rewrite Ho, Hc. eauto.
    + apply IH in H. destruct H as (pre & post & -> & -> & Hd & Hfirst).
      exists (c :: pre), post. repeat split.
      * cbn [length]. lia.
      * cbn [app depth_after]. now rewrite Ho, Hc.
      * intros pre' post' E. destruct pre' as [|x pre'].
        -- injection E as -> _. cbn in Hc. discriminate.
        -- injection E as -> E. cbn [app depth_after]. rewrite Ho, Hc. eauto.
Qed.

Lemma matching_brace_loop_none : forall tail i depth,
  matching_brace_loop tail i depth = None ->
  forall pre post, tail = pre ++ ch "}" :: post ->
                   depth_after (pre ++ [ch "}"]) depth <> 0%Z.
Proof.
  induction tail as [|c tail IH]; intros i depth H pre post E.
  - destruct pre; discriminate.
  - cbn [matching_brace_loop] in H.
    destruct pre as [|x pre]; cbn [app] in E; injection E as -> E.
    + cbn in H. destruct (Z.eqb_spec (depth - 1) 0); [discriminate|].
      cbn. assumption.
    + cbn [app depth_after].
      destruct (is_char "{" x); [now apply (IH _ _ H pre post)|].
      destruct (is_char "}" x); [|now apply (IH _ _ H pre post)].
      destruct ((depth - 1 =? 0)%Z); [discriminate|].
      now apply (IH _ _ H pre post).
Qed.

(** The first half of the brace rule in [_add_parsed_line]: behind a marker
    and an opening brace that has its match at [j], what lies between the
    two braces becomes one styled run and the scan goes on behind [j]. *)
Lemma parsed_line_loop_braced U fuel line i normal par c j :
  char_at line i = Some c ->
  is_char "^" c || is_char "_" c = true ->
  char_at line (i + 1) = Some (ch "{") ->
  _find_matching_brace line (i + 1) = Some j ->
  parsed_line_loop U (S fuel) line i normal par =
  parsed_line_loop U fuel line (j + 1) []
    (_add_run (snd (flush normal par)) (substr line (i + 1 + 1) j)
       (is_char "^" c) (negb (is_char "^" c))).
Proof.
  intros Hc Hm Hb Hj. cbn [parsed_line_loop].
  assert (Hi : i + 1 < length line).
  { apply nth_error_Some. unfold char_at in Hb. congruence. }
  replace (i <? length line) with true by (symmetry; apply Nat.ltb_lt; lia).
  rewrite Hc, Hm, Hb, Hj.
  replace (i + 1 <? length line) with true by (symmetry; now apply Nat.ltb_lt).
  cbn [andb]. replace (is_char "{" (ch "{")) with true by reflexivity.
  now destruct normal.
Qed.

(** The second half, in both scans: behind a marker and an opening brace
    that is not closed, the marker is kept as text and the scan goes on at
    the brace. *)
Lemma parsed_line_loop_unclosed U fuel line i normal par c :
  char_at line i = Some c ->
  is_char "^" c || is_char "_" c = true ->
  char_at line (i + 1) = Some (ch "{") ->
  _find_matching_brace line (i + 1) = None ->
  parsed_line_loop U (S fuel) line i normal par =
  parsed_line_loop U fuel line (i + 1) (normal ++ [c]) par.
Proof.
  intros Hc Hm Hb Hj. cbn [parsed_line_loop].
  assert (Hi : i + 1 < length line).
  { apply nth_error_Some. unfold char_at in Hb. congruence. }
  replace (i <? length line) with true by (symmetry; apply Nat.ltb_lt; lia).
  rewrite Hc, Hm, Hb, Hj.
  replace (i + 1 <? length line) with true by (symmetry; now apply Nat.ltb_lt).
  reflexivity.
Qed.

Lemma latex_scan_unclosed fuel content i buf runs c :
  char_at content i = Some c ->
  one_of "_^" c = true ->
  char_at content (i + 1) = Some (ch "{") ->
  str_find content (ch "}") (i + 1 + 1) = None ->
  latex_scan (S fuel) content i buf runs =
  latex_scan fuel content (i + 1) (buf ++ [c]) runs.
Proof.
  intros Hc Hm Hb Hj. cbn [latex_scan].
  assert (Hi : i + 1 < length content).
  { apply nth_error_Some. unfold char_at in Hb. congruence. }
  replace (i <? length content) with true by (symmetry; apply Nat.ltb_lt; lia).
  rewrite Hc, Hm, Hb, Hj.
  replace (i + 1 <? length content) with true
    by (symmetry; now apply Nat.ltb_lt).
  reflexivity.
Qed.

(** In [latex_like_to_runs] the styled run ends at the first closing brace. *)
Lemma latex_scan_braced fuel content i buf runs c closing :
  char_at content i = Some c ->
  one_of "_^" c = true ->
  char_at content (i + 1) = Some (ch "{") ->
  str_find content (ch "}") (i + 1 + 1) = Some closing ->
  latex_scan (S fuel) content i buf runs =
  latex_scan fuel content (closing + 1) []
    (snd (flush_buf buf runs)
     ++ [(substr content (i + 1 + 1) closing,
          is_char "_" c, negb (is_char "_" c))]).
Proof.
  intros Hc Hm Hb Hj. cbn [latex_scan].
  assert (Hi : i + 1 < length content).
  { apply nth_error_Some. unfold char_at in Hb. congruence. }
  replace (i <? length content) with true by (symmetry; apply Nat.ltb_lt; lia).
  rewrite Hc, Hm, Hb, Hj.
  replace (i + 1 <? length content) with true
    by (symmetry; now apply Nat.ltb_lt).
  cbn [andb]. replace (is_char "{" (ch "{")) with true by reflexivity.
  now destruct buf.
Qed.

Lemma find_in_first c : forall s i k,
  find_in c s i = Some k ->
  exists pre post, s = pre ++ c :: post /\ k = i + length pre /\ ~ In c pre.
Proof.
  induction s as [|x s IH]; intros i k H; [discriminate|].
  cbn [find_in] in H. destruct (N.eqb_spec x c) as [->|Hne].
  - injection H as <-. exists [], s. repeat split; try (cbn; lia); auto.
  - apply IH in H. destruct H as (pre & post & -> & -> & Hnin).
    exists (x :: pre), post. repeat split.
    + cbn [length]. lia.
    + intros [E|Hin]; [congruence|auto].
Qed.

(** ** The document assembler *)

Lemma update_paragraph_last d x f :
  update_paragraph (d ++ [x]) (length d) f = d ++ [f x].
Proof. induction d as [|y d IH]; [reflexivity|]. cbn. now rewrite IH. Qed.

Lemma add_runs_last rs : forall d c xs,
  add_runs (d ++ [{| p_center := c; p_runs := xs |}]) (length d) rs =
  d ++ [{| p_center := c; p_runs := xs ++ map styled_run rs |}].
Proof.
  unfold add_runs. induction rs as [|r rs IH]; intros d c xs.
  - cbn. now rewrite app_nil_r.
  - cbn [fold_left map]. rewrite update_paragraph_last. cbn [p_center p_runs].
    rewrite IH. now rewrite <- app_assoc.
Qed.

Lemma add_runs_new d rs :
  add_runs (fst (add_paragraph d)) (snd (add_paragraph d)) rs =
  d ++ [own_paragraph rs].
Proof. unfold add_paragraph. cbn [fst snd]. now rewrite add_runs_last. Qed.

Section Assembler.

Variable U : unicode_tables.

Lemma outcome_after_closed d p rs paras b :
  (paras = [] -> b = false) ->
  text_segment_outcome (add_runs d p rs, None) paras b =
  (add_runs d p rs ++ map own_paragraph paras,
   if b then Some (match paras with
                   | [] => p
                   | _ :: _ => length (add_runs d p rs ++ map own_paragraph paras) - 1
                   end)
   else None).
Proof.
  intros Hb. destruct paras as [|f o].
  - rewrite Hb by reflexivity. cbn. now rewrite app_nil_r.
  - unfold text_segment_outcome, open_paragraph, add_paragraph. cbn [snd fst].
    rewrite add_runs_last. cbn [app map]. fold (own_paragraph f).
    rewrite <- app_assoc. cbn [app].
    f_equal. destruct b; [|reflexivity]. f_equal.
    destruct o; [|reflexivity].
    cbn [map]. rewrite length_app. cbn [length]. lia.
Qed.

Lemma last_blank : forall lines,
  lines <> [] -> nonblank_lines U lines = [] -> last_nonblank U lines = false.
Proof.
  induction lines as [|a [|b lines] IH]; intros Hne H; [congruence| |].
  - unfold nonblank_lines, last_nonblank in *. cbn [map filter last] in *.
    now destruct (nonempty (strip U a)).
  - unfold nonblank_lines in H. cbn [map filter] in H.
    destruct (nonempty (strip U a)); [discriminate|].
    change (last_nonblank U (a :: b :: lines)) with (last_nonblank U (b :: lines)).
    apply IH; [discriminate|exact H].
Qed.

Lemma text_lines_outcome : forall lines nlines index st,
  index + length lines = nlines ->
  exists paras,
    Forall2 (fun line rs => _make_runs U line = Some rs)
      (nonblank_lines U lines) paras /\
    text_lines U nlines index lines st =
    Some (text_segment_outcome st paras (last_nonblank U lines)).
Proof.
  induction lines as [|line more IH]; intros nlines index st Hn.
  - exists []. split; [constructor|reflexivity].
  - cbn [text_lines]. unfold nonblank_lines. cbn [map filter].
    fold (nonblank_lines U more).
    destruct more as [|l2 more'].
    + cbn [length] in Hn.
      replace (index <? nlines - 1) with false
        by (symmetry; apply Nat.ltb_ge; lia).
      cbn [andb text_lines nonblank_lines map filter].
      unfold last_nonblank. cbn [last].
      destruct (nonempty (strip U line)) eqn:Hb.
      * destruct (_make_runs_total U (strip U line)) as (rs & Hrs & _).
        rewrite Hrs. destruct (open_paragraph st) as [d p] eqn:Hop.
        exists [rs]. split; [repeat constructor; assumption|].
        cbn [text_segment_outcome map]. rewrite Hop. now rewrite app_nil_r.
      * exists []. split; [constructor|now destruct st].
    + cbn [length] in Hn.
      replace (index <? nlines - 1) with true
        by (symmetry; apply Nat.ltb_lt; lia).
      change (last_nonblank U (line :: l2 :: more'))
        with (last_nonblank U (l2 :: more')).
      destruct (nonempty (strip U line)) eqn:Hb; cbn [andb].
      * destruct (_make_runs_total U (strip U line)) as (rs & Hrs & _).
        rewrite Hrs. destruct (open_paragraph st) as [d p] eqn:Hop.
        destruct (IH nlines (S index) (add_runs d p rs, @None nat))
          as (paras & HF & E); [cbn [length]; lia|].
        exists (rs :: paras). split; [constructor; assumption|].
        rewrite E. f_equal. rewrite outcome_after_closed.
        -- cbn [text_segment_outcome]. rewrite Hop. reflexivity.
        -- intros ->. inversion HF as [Hnb|]; subst.
           apply last_blank; [discriminate|now symmetry].
      * destruct (IH nlines (S index) st) as (paras & HF & E);
          [cbn [length]; lia|].
        exists paras. split; [assumption|]. destruct st. exact E.
Qed.

End Assembler.


(** ** Totality of the loops *)

Lemma Matches_not_nullable r bef w aft :
  Matches r bef w aft -> nullable r = false -> w <> [].
Proof.
  induction 1; cbn [nullable]; intros Hn; try discriminate.
  - apply andb_false_iff in Hn. destruct Hn as [Hn|Hn].
    + apply IHMatches1 in Hn. destruct w1; [congruence|discriminate].
    + apply IHMatches2 in Hn. destruct w1; [assumption|discriminate].
  - apply orb_false_iff in Hn. destruct Hn. auto.
  - apply orb_false_iff in Hn. destruct Hn. auto.
  - auto.
Qed.

(** None of the patterns of the program matches the empty string. *)
Lemma patterns_not_nullable (U : unicode_tables) :
  Forall (fun r => nullable r = false)
    [re_unwrap "mathrm"; re_unwrap "text"; lits "\uparrow"; lits "\downarrow";
     re_to; re_leftrightarrow; re_xrightarrow; re_begin_end; lits "\\";
     re_ampersand U; re_ocr_equals U; re_command_arg; re_command;
     re_blanks; re_newline; re_block; re_inline;
     re_gap U ascii_letter (re_digit U); re_gap U (re_digit U) letter_or_open;
     re_gap U ascii_lower ascii_upper; re_gap U (one_of ")]}") (re_digit U);
     Plus (Cls (isspace U)); re_signed_digits U; re_digits U].
Proof. repeat constructor. Qed.

Lemma re_match_nonempty r s m :
  nullable r = false -> re_match r s = Some m -> 0 < length m /\ length m <= length s.
Proof.
  unfold re_match. intros Hn H.
  destruct (match_at r [] s) as [st|] eqn:Hm; [|discriminate].
  injection H as <-. apply match_at_sound in Hm.
  destruct Hm as (w & E & _ & M).
  apply Matches_not_nullable in M; [|assumption].
  rewrite E, length_app. 
  replace (length w + length (rest st) - length (rest st)) with (length w) by lia.
  rewrite firstn_app, firstn_all, Nat.sub_diag, firstn_O, app_nil_r.
  destruct w; [congruence|]. cbn [length]. lia.
Qed.

Lemma matching_brace_loop_ge : forall tail i depth j,
  matching_brace_loop tail i depth = Some j -> i <= j.
Proof.
  induction tail as [|c tail IH]; intros i depth j H; [discriminate|].
  cbn [matching_brace_loop] in H.
  destruct (is_char "{" c).
  - apply IH in H. lia.
  - destruct (is_char "}" c).
    + destruct ((depth - 1 =? 0)%Z).
      * injection H as <-. lia.
      * apply IH in H. lia.
    + apply IH in H. lia.
Qed.

Section Termination.

Variable U : unicode_tables.

Lemma unbraced_content_progress line i is_super content j :
  unbraced_content U line i is_super = Return (content, j) -> i < j.
Proof.
  unfold unbraced_content. intros H.
  destruct (re_match _ _) as [m|] eqn:Hm.
  - injection H as <- <-.
    apply re_match_nonempty in Hm; [lia|now destruct is_super].
  - destruct (char_at line i); [|discriminate]. injection H as <- <-. lia.
Qed.

(** The bound given to the loop of [_add_parsed_line] is never used up. *)
Lemma parsed_line_loop_fuel fuel line : forall i normal par,
  length line - i < fuel ->
  snd (parsed_line_loop U fuel line i normal par) <> OutOfFuel.
Proof.
  induction fuel as [|fuel IH]; intros i normal par Hf; [lia|].
  cbn [parsed_line_loop]. destruct (i <? length line) eqn:Hi.
  2:{ discriminate. }
  apply Nat.ltb_lt in Hi.
  destruct (char_at line i) as [c|]; [|discriminate].
  destruct (is_char "^" c || is_char "_" c); [|apply IH; lia].
  destruct ((i + 1 <? length line) && _).
  - destruct (_find_matching_brace line (i + 1)) as [j|] eqn:Hj.
    + apply matching_brace_loop_ge in Hj.
      destruct (flush normal par) as [normal' par']. apply IH. lia.
    + apply IH. lia.
  - destruct (unbraced_content U line (i + 1) (is_char "^" c))
      as [[content j]|e|] eqn:Hu.
    + apply unbraced_content_progress in Hu.
      destruct (flush normal par) as [normal' par']. apply IH. lia.
    + discriminate.
    + unfold unbraced_content in Hu.
      destruct (re_match _ _); [discriminate|].
      destruct (char_at line (i + 1)); discriminate.
Qed.

Lemma _add_parsed_line_terminates par line :
  snd (_add_parsed_line U par line) <> OutOfFuel.
Proof. apply parsed_line_loop_fuel. lia. Qed.

Lemma create_docx_bytes_terminates text : create_docx_bytes U text <> OutOfFuel.
Proof.
  unfold create_docx_bytes. generalize (@nil paragraph) as doc.
  induction (str_split text NL) as [|raw_line more IH]; intros doc;
    [discriminate|].
  cbn [docx_lines]. destruct (nonempty raw_line).
  - pose proof (_add_parsed_line_terminates [] raw_line) as Ht.
    destruct (_add_parsed_line U [] raw_line) as [par [u|e|]];
      [apply IH|discriminate|now cbn in Ht].
  - apply IH.
Qed.

(** The marker at the end of a line makes [_add_parsed_line] raise. *)
Lemma _add_parsed_line_trailing_marker :
  _add_parsed_line U [] (str_of "x^") = ([], Raise index_error).
Proof. reflexivity. Qed.

Lemma assemble_total : forall segments st,
  exists st', assemble U segments st = Some st'.
Proof.
  induction segments as [|[kind content] more IH]; intros st; [now exists st|].
  cbn [assemble].
  assert (H : exists st1, assemble_segment U st (kind, content) = Some st1).
  { destruct kind.
    - cbn [assemble_segment]. destruct (add_paragraph (fst st)) as [d p].
      destruct (_make_runs_total U content) as (rs & -> & _). eauto.
    - cbn [assemble_segment]. destruct (open_paragraph st) as [d p].
      destruct (_make_runs_total U content) as (rs & -> & _). eauto.
    - cbn [assemble_segment].
      destruct (@text_lines_outcome U (str_split content NL)
                  (length (str_split content NL)) 0 st eq_refl)
        as (paras & _ & ->). eauto. }
  destruct H as (st1 & ->). apply IH.
Qed.

(** [create_word_document] returns a document for every text. *)
Lemma create_word_document_total markdown_text :
  exists d, create_word_document U markdown_text = Some d.
Proof.
  unfold create_word_document.
  destruct (assemble_total (parse_content U markdown_text) ([], None))
    as ([d cur] & ->). eauto.
Qed.

End Termination.

(** ** The orchestrator *)

Section Orchestrator.

Variable U : unicode_tables.
Variable client : trace -> chat_request -> reply.
Variable b64 : list Byte.byte -> str.
Variables vit_prompt refiner_prompt : str.
Variable sdk : bool.

Lemma extract_raises data mime model tr e tr' :
  _vit_extract_text client b64 vit_prompt data mime model tr = (Raise e, tr') ->
  exn_type e = ChemistryOCRError.
Proof.
  unfold _vit_extract_text. destruct data.
  - intros H. now injection H as <- _.
  - destruct (client tr _); intros H; [discriminate|].
    now injection H as <- _.
Qed.

(** One extraction is at most one request. *)
Lemma extract_trace data mime model tr :
  snd (_vit_extract_text client b64 vit_prompt data mime model tr) = tr \/
  snd (_vit_extract_text client b64 vit_prompt data mime model tr) =
  tr ++ [Call (vit_request b64 vit_prompt data mime model)].
Proof.
  unfold _vit_extract_text. destruct data; [now left|].
  right. now destruct (client tr _).
Qed.

Lemma calls_snoc_call tr r : calls (tr ++ [Call r]) = calls tr + 1.
Proof. unfold calls. rewrite filter_app, length_app. reflexivity. Qed.


(** The retry loop on a request that is always refused for the rate limit:
    one request and one sleep per attempt, and the last refusal at the end. *)
Lemma refine_loop_exhausted raw model base :
  always_rate_limited U client sdk (refiner_request refiner_prompt raw model) ->
  forall attempts last_err tr,
    snd (refine_loop U client refiner_prompt sdk raw model base attempts
           last_err tr)
    = tr ++ rate_limited_attempts (refiner_request refiner_prompt raw model)
              base attempts /\
    match attempts with
    | [] => fst (refine_loop U client refiner_prompt sdk raw model base
                   attempts last_err tr)
            = match last_err with Some e => Raise e | None => Return raw end
    | _ :: _ => exists e,
        fst (refine_loop U client refiner_prompt sdk raw model base attempts
               last_err tr) = Raise e /\
        is_rate_limit U e = true
    end.
Proof.
  intros Hrl. induction attempts as [|attempt more IH]; intros last_err tr.
  - cbn. now rewrite app_nil_r.
  - cbn [refine_loop].
    destruct (Hrl tr) as (e & -> & Hsdk & Hrate). rewrite Hsdk, Hrate.
    destruct (IH (Some e)
                ((tr ++ [Call (refiner_request refiner_prompt raw model)])
                 ++ [Sleep (sleep_seconds base attempt)]))
      as [Htr Hres].
    split.
    + rewrite Htr. cbn [rate_limited_attempts flat_map app].
      now rewrite <- !app_assoc.
    + destruct more as [|a2 more].
      * exists e. split; [exact Hres|exact Hrate].
      * exact Hres.
Qed.

Lemma calls_rate_limited request base attempts :
  calls (rate_limited_attempts request base attempts) = length attempts.
Proof.
  induction attempts as [|a l IH]; [reflexivity|].
  unfold calls, rate_limited_attempts in *.
  cbn [flat_map app filter is_call length]. now f_equal.
Qed.

Lemma calls_app a b : calls (a ++ b) = calls a + calls b.
Proof. unfold calls. now rewrite filter_app, length_app. Qed.

(** Whatever the refiner does, no error of it leaves
    [process_image_bytes_vit]: the document is built from its text or from
    the draft. *)
Lemma refinement_never_fatal data mime model tr0 draft tr :
  extract_with_fallback client b64 vit_prompt data mime model tr0 =
    (Return draft, tr) ->
  exists refined_text tr',
    process_image_bytes_vit U client b64 vit_prompt refiner_prompt sdk
      data mime model tr0 =
    (create_docx_bytes U (_final_cleanup refined_text), tr').
Proof.
  intros Hx. unfold process_image_bytes_vit. rewrite Hx.
  destruct (refine_or_draft U client refiner_prompt sdk draft tr)
    as [refined_text tr']. eauto.
Qed.

(** An empty payload raises before any request is made. *)
Lemma empty_payload_raises mime model tr :
  _vit_extract_text client b64 vit_prompt [] mime model tr =
  (Raise (ocr_error (str_of "Empty image payload")), tr).
Proof. reflexivity. Qed.


End Orchestrator.

(** ** The properties at concrete inputs *)

Example normalize_SiCl4 :
  normalize_chem_spacing sample_tables (str_of "Si Cl4") = str_of "SiCl4".
Proof. reflexivity. Qed.

Example normalize_H2O :
  normalize_chem_spacing sample_tables (str_of "H 2 O") = str_of "H2O".
Proof. reflexivity. Qed.

Example make_runs_H2O :
  _make_runs sample_tables (str_of "H2O") =
  Some [(str_of "H", false, false); (str_of "2", true, false);
        (str_of "O", false, false)].
Proof. reflexivity. Qed.

Example block_formula_lines :
  parse_content sample_tables (str_of "$$A=B\\C=D$$") =
  [(seg_block_formula, str_of "A=B"); (seg_block_formula, str_of "C=D")].
Proof. reflexivity. Qed.

Example final_cleanup_line :
  _final_cleanup (str_of "$H_{2}O$\n") = str_of "H_{2}O" ++ [NL].
Proof. reflexivity. Qed.






Lemma normalize_idempotent_witness :
  (forall c, uni_isdecimal sample_tables c = true ->
             uni_isspace sample_tables c = false) /\
  normalize_chem_spacing sample_tables
    (normalize_chem_spacing sample_tables (str_of " Si Cl 4  +  H 2 O "))
  = normalize_chem_spacing sample_tables (str_of " Si Cl 4  +  H 2 O ").
Proof.
  assert (H : forall c, uni_isdecimal sample_tables c = true ->
                        uni_isspace sample_tables c = false).
  { intros c Hc. cbn [sample_tables uni_isdecimal uni_isspace] in *.
    apply andb_prop in Hc. destruct Hc as [Hlo Hhi].
    apply N.leb_le in Hlo. apply N.leb_le in Hhi.
    apply orb_false_iff. split; apply N.eqb_neq; lia. }
  split; [exact H|exact (@normalize_idempotent sample_tables H
                        (str_of " Si Cl 4  +  H 2 O "))].
Defined.


